(** * The connection engine of the Wave server (client.go)

    A shallow embedding of [client.go]: the websocket client with its read
    loop ([listen]), its write loop ([flush]), the bounded outbound queue
    ([send]) and the header merge ([mergeHeaders]).

    Conventions.
    - A Go [string] and a Go [[]byte] are both sequences of bytes: [string].
    - A Go map is a [gmap]; a nil map or a nil pointer is [None].
    - A buffered Go channel is a record of its buffer, capacity and closed
      flag; the operations on it follow the Go language specification.
    - The read loop and the write loop are modelled one iteration at a time,
      as functions on the state they share. *)

From Stdlib Require Import ZArith Ascii String List Lia.
From stdpp Require Import base option list strings gmap fin_maps.

Open Scope string_scope.

#[local] Set Warnings "-register-all".

(** ** Go values used by client.go *)

(** The constants of client.go, durations in nanoseconds as in
    [time.Duration], the size in bytes. *)
Definition second : Z := 1000000000.
Definition writeWait : Z := 10 * second.
Definition pongWait : Z := 60 * second.
Definition pingPeriod : Z := (pongWait * 9) / 10.
Definition maxMessageSize : Z := 1 * 1024 * 1024.

(** [strings.Join(elems, sep)]. *)
Fixpoint strings_Join (elems : list string) (sep : string) : string :=
  match elems with
  | [] => ""
  | [e] => e
  | e :: rest => e +:+ sep +:+ strings_Join rest sep
  end.

(** [http.Header] is [map[string][]string]; [None] is the nil map. *)
Abbreviation Header := (option (gmap string (list string))).

(** The values of a header, whether the header map is nil or not. *)
Definition header_get (h : Header) (k : string) : option (list string) :=
  match h with
  | Some m => m !! k
  | None => None
  end.

(** Byte literals of the source hold double quotes; [lit] writes them with
    apostrophes: [lit "{'e':'not_found'}"] is the JSON text of the source. *)
Definition dquote : ascii := "034"%char.

Fixpoint lit (s : string) : string :=
  match s with
  | EmptyString => EmptyString
  | String c rest =>
      String (if Ascii.eqb c "039"%char then dquote else c) (lit rest)
  end.

(** [var newline = []byte{'\n'}] and [notFoundMsg]. *)
Definition newline : string := String "010"%char "".
Definition notFoundMsg : string := lit "{'e':'not_found'}".

(** ** The header merge, client.go lines 266-280 *)

(** [for k, v := range h { headersMap[k] = strings.Join(v, ",") }], the
    entries of [h] visited in the order [kvs]. *)
Definition range_join (kvs : list (string * list string))
    (headersMap : gmap string string) : gmap string string :=
  foldl (λ m kv, <[kv.1 := strings_Join kv.2 ","]> m) headersMap kvs.

(** [mergeHeaders(headersMap, h1, h2)]: the map argument is written in
    place, so the model returns it. [h2] is copied first and [h1] second. *)
Definition mergeHeaders (headersMap : gmap string string) (h1 h2 : Header)
    : gmap string string :=
  let headersMap :=
    match h2 with
    | Some h => range_join (map_to_list h) headersMap
    | None => headersMap
    end in
  match h1 with
  | Some h => range_join (map_to_list h) headersMap
  | None => headersMap
  end.

(** ** The outbound queue: a buffered channel of byte messages *)

Record chan := mkChan {
  ch_buf : list string;   (* queued values, oldest first *)
  ch_cap : nat;           (* capacity given to make *)
  ch_closed : bool        (* close(ch) was called *)
}.

(** [make(chan []byte, n)] *)
Definition make_chan (n : nat) : chan :=
  {| ch_buf := []; ch_cap := n; ch_closed := false |}.

(** [len(ch)] *)
Definition chan_len (ch : chan) : nat := length (ch_buf ch).

(** What running a piece of Go code gives: a value, or a run-time panic. *)
Inductive panic := nil_dereference | send_on_closed_channel | close_of_closed_channel.

Inductive result (A : Type) : Type :=
  | Ok (a : A)
  | Panic (p : panic).
Arguments Ok {A} a.
Arguments Panic {A} p.

(** [select { case ch <- v: return true; default: return false }].
    A send on a closed channel panics, in a select as anywhere else; on an
    open channel the send case is ready exactly when the buffer has room. *)
Definition chan_try_send (ch : chan) (v : string) : result (bool * chan) :=
  if ch_closed ch then Panic send_on_closed_channel
  else if (chan_len ch <? ch_cap ch)%nat
       then Ok (true, {| ch_buf := ch_buf ch ++ [v]; ch_cap := ch_cap ch;
                         ch_closed := false |})
       else Ok (false, ch).

(** [v, ok := <-ch] when the receive is ready: the oldest queued value, or
    the zero value and [ok = false] on a closed and drained channel. [None]
    when the receive would block. *)
Definition chan_recv (ch : chan) : option (option string * chan) :=
  match ch_buf ch with
  | v :: rest =>
      Some (Some v, {| ch_buf := rest; ch_cap := ch_cap ch;
                       ch_closed := ch_closed ch |})
  | [] => if ch_closed ch then Some (None, ch) else None
  end.

(** [close(ch)] *)
Definition chan_close (ch : chan) : result chan :=
  if ch_closed ch then Panic close_of_closed_channel
  else Ok {| ch_buf := ch_buf ch; ch_cap := ch_cap ch; ch_closed := true |}.

(** ** The wire types *)

(** [type Boot struct { Hash string `json:"#,omitempty"` }] *)
Record Boot := { Hash : string }.

(** Modelled from the spec: the declarations of [Meta] and [OpsD], which
    client.go fills in but does not declare. Section 6 gives the frames:
    metadata as an object under "m" with the members "username" and
    "editor", the logout directive as a string under "u". A field that is
    not set is left out of the frame. *)
Record Meta := { Username : string; Editor : bool }.
Record OpsD := { U : string; M : option Meta }.

(** Modelled from the spec: [emptyJSON], the boot payload of a watch with no
    location hash: an empty object. *)
Definition emptyJSON : string := "{}".

(** ** Go's encoding/json, as far as client.go uses it

    client.go marshals three Go types (a struct [Boot], a struct [OpsD] and
    a [map[string]map[string]string]) and unmarshals into a
    [map[string]string]. The package is Go's standard library, not part of
    the repository; this is a model of its documented behaviour on these
    types. *)
Module json.

(** *** UTF-8, as utf8.DecodeRuneInString sees it *)

Definition code (c : ascii) : N := N_of_ascii c.

Definition cont (lo hi : N) (s : string) : option string :=
  match s with
  | String b r => if (lo <=? code b)%N && (code b <=? hi)%N then Some r else None
  | EmptyString => None
  end.

(** The number of bytes of the well-formed encoding at the head of [s];
    0 when [s] is empty or starts with an ill-formed encoding (for which
    the decoder yields RuneError with size 1). *)
Definition utf8_len (s : string) : nat :=
  match s with
  | EmptyString => 0
  | String b0 r =>
      let n := code b0 in
      if (n <? 0x80)%N then 1
      else if (n <? 0xC2)%N then 0
      else if (n <? 0xE0)%N then
        match cont 0x80 0xBF r with Some _ => 2 | None => 0 end
      else if (n <? 0xF0)%N then
        let lo := if (n =? 0xE0)%N then 0xA0%N else 0x80%N in
        let hi := if (n =? 0xED)%N then 0x9F%N else 0xBF%N in
        match cont lo hi r with
        | Some r1 => match cont 0x80 0xBF r1 with Some _ => 3 | None => 0 end
        | None => 0
        end
      else if (n <? 0xF5)%N then
        let lo := if (n =? 0xF0)%N then 0x90%N else 0x80%N in
        let hi := if (n =? 0xF4)%N then 0x8F%N else 0xBF%N in
        match cont lo hi r with
        | Some r1 =>
            match cont 0x80 0xBF r1 with
            | Some r2 => match cont 0x80 0xBF r2 with Some _ => 4 | None => 0 end
            | None => 0
            end
        | None => 0
        end
      else 0
  end.

Definition byte (n : N) : ascii := ascii_of_N n.

(** utf8.EncodeRune, for a rune that is no surrogate and at most U+10FFFF. *)
Definition utf8_encode (r : N) : string :=
  if (r <? 0x80)%N then String (byte r) ""
  else if (r <? 0x800)%N then
    String (byte (0xC0 + r / 0x40)) (String (byte (0x80 + r mod 0x40)) "")
  else if (r <? 0x10000)%N then
    String (byte (0xE0 + r / 0x1000))
      (String (byte (0x80 + (r / 0x40) mod 0x40))
         (String (byte (0x80 + r mod 0x40)) ""))
  else
    String (byte (0xF0 + r / 0x40000))
      (String (byte (0x80 + (r / 0x1000) mod 0x40))
         (String (byte (0x80 + (r / 0x40) mod 0x40))
            (String (byte (0x80 + r mod 0x40)) ""))).

(** U+FFFD, the replacement character, in UTF-8. *)
Definition replacement : string := utf8_encode 0xFFFD.

(** *** The encoder *)

Definition hex_digit (n : N) : ascii :=
  if (n <? 10)%N then byte (48 + n) else byte (87 + n).

(** One byte below 0x80 inside a JSON string, with HTML escaping on.
    (Backspace and form feed are written with their letters since Go 1.22,
    as here, and with four hexadecimal digits before.) *)
Definition escape_ascii (b : ascii) : string :=
  let n := code b in
  if (n =? 34)%N || (n =? 92)%N then String "\"%char (String b "")
  else if (n =? 8)%N then "\b"
  else if (n =? 12)%N then "\f"
  else if (n =? 10)%N then "\n"
  else if (n =? 13)%N then "\r"
  else if (n =? 9)%N then "\t"
  else if (n <? 32)%N || (n =? 60)%N || (n =? 62)%N || (n =? 38)%N then
    "\u00" +:+ String (hex_digit (n / 16)) (String (hex_digit (n mod 16)) "")
  else String b "".

(** The bytes of a string between its quotes. [pending] counts the bytes
    still to pass of a rune whose head was already seen, copied when [keep]
    and left out otherwise. *)
Fixpoint escape_from (keep : bool) (pending : nat) (s : string) : string :=
  match s with
  | EmptyString => EmptyString
  | String b r =>
      match pending with
      | S k => if keep then String b (escape_from keep k r) else escape_from keep k r
      | O =>
          if (code b <? 0x80)%N then escape_ascii b +:+ escape_from true 0 r
          else
            match utf8_len s with
            | O => "\ufffd" +:+ escape_from true 0 r
            | S k =>
                match s with
                | String _ (String b1 (String b2 _)) =>
                    if (code b =? 0xE2)%N && (code b1 =? 0x80)%N
                       && ((code b2 =? 0xA8)%N || (code b2 =? 0xA9)%N)
                    then "\u202" +:+ String (hex_digit (code b2 mod 16))
                                       (escape_from false k r)
                    else String b (escape_from true k r)
                | _ => String b (escape_from true k r)
                end
            end
      end
  end.

(** A Go string as a JSON string. *)
Definition quote (s : string) : string :=
  String dquote (escape_from true 0 s +:+ String dquote "").

(** Map keys are written in increasing byte order. *)
Fixpoint insert_sorted {A} (kv : string * A) (l : list (string * A)) : list (string * A) :=
  match l with
  | [] => [kv]
  | kv' :: rest =>
      if String.leb kv.1 kv'.1 then kv :: l else kv' :: insert_sorted kv rest
  end.

Definition sorted_entries {A} (m : gmap string A) : list (string * A) :=
  foldr insert_sorted [] (map_to_list m).

Definition object_text (members : list string) : string :=
  "{" +:+ strings_Join members "," +:+ "}".

Definition member (key : string) (text : string) : string :=
  quote key +:+ ":" +:+ text.

(** A [map[string]string]; a nil map is null. *)
Definition encode_map (m : option (gmap string string)) : string :=
  match m with
  | None => "null"
  | Some m => object_text (map (λ kv, member kv.1 (quote kv.2)) (sorted_entries m))
  end.

(** A [map[string]map[string]string] that is not nil. *)
Definition encode_body (body : gmap string (option (gmap string string))) : string :=
  object_text (map (λ kv, member kv.1 (encode_map kv.2)) (sorted_entries body)).

(** *** The decoder *)

(** A JSON text, parsed. *)
Inductive value : Type :=
  | Null
  | Bool (b : bool)
  | Number (lexeme : string)
  | Str (s : string)
  | Array (elems : list value)
  | Object (members : list (string * value)).

Inductive error := SyntaxError | UnmarshalTypeError.

Definition maxNestingDepth : N := 10000.

Definition is_space (c : ascii) : bool :=
  (code c =? 32)%N || (code c =? 9)%N || (code c =? 13)%N || (code c =? 10)%N.

Fixpoint skip_space (s : string) : string :=
  match s with
  | String c r => if is_space c then skip_space r else s
  | EmptyString => s
  end.

Fixpoint string_take (n : nat) (s : string) : string :=
  match n, s with
  | S n, String c r => String c (string_take n r)
  | _, _ => EmptyString
  end.

Fixpoint string_drop (n : nat) (s : string) : string :=
  match n, s with
  | S n, String _ r => string_drop n r
  | _, _ => s
  end.

Definition is_digit (c : ascii) : bool := (48 <=? code c)%N && (code c <=? 57)%N.

Definition hex_value (c : ascii) : option N :=
  let n := code c in
  if is_digit c then Some (n - 48)%N
  else if (97 <=? n)%N && (n <=? 102)%N then Some (n - 87)%N
  else if (65 <=? n)%N && (n <=? 70)%N then Some (n - 55)%N
  else None.

(** Four hexadecimal digits, as after a backslash and a u. *)
Definition hex4 (s : string) : option (N * string) :=
  match s with
  | String a (String b (String c (String d r))) =>
      match hex_value a, hex_value b, hex_value c, hex_value d with
      | Some a, Some b, Some c, Some d => Some (((a * 16 + b) * 16 + c) * 16 + d, r)%N
      | _, _, _, _ => None
      end
  | _ => None
  end.

Definition is_surrogate (r : N) : bool := (0xD800 <=? r)%N && (r <? 0xE000)%N.

(** utf16.DecodeRune on [hi] and the escape that follows in [s], when the
    two make a valid surrogate pair. *)
Definition surrogate_pair (hi : N) (s : string) : option (N * string) :=
  match s with
  | String b (String u r) =>
      if (code b =? 92)%N && (code u =? 117)%N then
        match hex4 r with
        | Some (lo, r') =>
            if (0xD800 <=? hi)%N && (hi <? 0xDC00)%N
               && (0xDC00 <=? lo)%N && (lo <? 0xE000)%N
            then Some ((hi - 0xD800) * 0x400 + (lo - 0xDC00) + 0x10000, r')%N
            else None
        | None => None
        end
      else None
  | _ => None
  end.

(** The character a one-letter escape stands for. *)
Definition unescape (e : ascii) : option ascii :=
  let n := code e in
  if (n =? 34)%N || (n =? 92)%N || (n =? 47)%N then Some e
  else if (n =? 98)%N then Some (byte 8)
  else if (n =? 102)%N then Some (byte 12)
  else if (n =? 110)%N then Some (byte 10)
  else if (n =? 114)%N then Some (byte 13)
  else if (n =? 116)%N then Some (byte 9)
  else None.

Definition prepend {A} (p : string) (o : option (string * A)) : option (string * A) :=
  match o with
  | Some (s, a) => Some (p +:+ s, a)
  | None => None
  end.

(** The inside of a JSON string, from after its opening quote: the string
    it denotes, coerced to well-formed UTF-8, and the input after its
    closing quote. [None] is a syntax error. *)
Fixpoint string_body (fuel : nat) (s : string) : option (string * string) :=
  match fuel with
  | O => None
  | S fuel =>
      match s with
      | EmptyString => None
      | String c r =>
          if (code c =? 34)%N then Some (EmptyString, r)
          else if (code c =? 92)%N then
            match r with
            | EmptyString => None
            | String e r1 =>
                match unescape e with
                | Some ch => prepend (String ch "") (string_body fuel r1)
                | None =>
                    if (code e =? 117)%N then
                      match hex4 r1 with
                      | None => None
                      | Some (rr, r2) =>
                          if is_surrogate rr then
                            match surrogate_pair rr r2 with
                            | Some (dec, r3) =>
                                prepend (utf8_encode dec) (string_body fuel r3)
                            | None => prepend replacement (string_body fuel r2)
                            end
                          else prepend (utf8_encode rr) (string_body fuel r2)
                      end
                    else None
                end
            end
          else if (code c <? 32)%N then None
          else if (code c <? 128)%N then prepend (String c "") (string_body fuel r)
          else
            match utf8_len s with
            | O => prepend replacement (string_body fuel r)
            | S k => prepend (String c (string_take k r))
                             (string_body fuel (string_drop k r))
            end
      end
  end.

Definition string_token (s : string) : option (string * string) :=
  string_body (S (String.length s)) s.

(** The longest prefix of digits, and what follows it. *)
Fixpoint digits (s : string) : string * string :=
  match s with
  | String c r =>
      if is_digit c then let '(d, r') := digits r in (String c d, r') else (EmptyString, s)
  | EmptyString => (EmptyString, s)
  end.

(** A JSON number at the head of [s]: what follows it. *)
Definition number_rest (s : string) : option string :=
  let s1 := match s with
            | String c r => if (code c =? 45)%N then r else s
            | EmptyString => s
            end in
  let after_int :=
    match s1 with
    | String c r =>
        if (code c =? 48)%N then Some r
        else if is_digit c then Some (snd (digits r))
        else None
    | EmptyString => None
    end in
  let after_frac (s2 : string) :=
    match s2 with
    | String c r =>
        if (code c =? 46)%N then
          match digits r with
          | (EmptyString, _) => None
          | (_, r') => Some r'
          end
        else Some s2
    | EmptyString => Some s2
    end in
  let after_exp (s3 : string) :=
    match s3 with
    | String c r =>
        if (code c =? 101)%N || (code c =? 69)%N then
          let r1 := match r with
                    | String g r' =>
                        if (code g =? 43)%N || (code g =? 45)%N then r' else r
                    | EmptyString => r
                    end in
          match digits r1 with
          | (EmptyString, _) => None
          | (_, r') => Some r'
          end
        else Some s3
    | EmptyString => Some s3
    end in
  match after_int with
  | Some s2 => match after_frac s2 with Some s3 => after_exp s3 | None => None end
  | None => None
  end.

Definition keyword (w : string) (v : value) (s : string) : option (value * string) :=
  if String.eqb (string_take (String.length w) s) w
  then Some (v, string_drop (String.length w) s) else None.

(** One JSON value at the head of [s] (no leading space), and the input
    after it. [depth] counts the objects and arrays being read. *)
Fixpoint parse_value (fuel : nat) (depth : N) (s : string) : option (value * string) :=
  match fuel with
  | O => None
  | S fuel =>
      match s with
      | EmptyString => None
      | String c r =>
          let n := code c in
          if (n =? 123)%N then
            if (maxNestingDepth <? depth + 1)%N then None
            else
              match skip_space r with
              | String c' r' =>
                  if (code c' =? 125)%N then Some (Object [], r')
                  else
                    match parse_members fuel (depth + 1) (String c' r') with
                    | Some (ms, rest) => Some (Object ms, rest)
                    | None => None
                    end
              | EmptyString => None
              end
          else if (n =? 91)%N then
            if (maxNestingDepth <? depth + 1)%N then None
            else
              match skip_space r with
              | String c' r' =>
                  if (code c' =? 93)%N then Some (Array [], r')
                  else
                    match parse_elements fuel (depth + 1) (String c' r') with
                    | Some (vs, rest) => Some (Array vs, rest)
                    | None => None
                    end
              | EmptyString => None
              end
          else if (n =? 34)%N then
            match string_token r with
            | Some (str, rest) => Some (Str str, rest)
            | None => None
            end
          else if (n =? 116)%N then keyword "true" (Bool true) s
          else if (n =? 102)%N then keyword "false" (Bool false) s
          else if (n =? 110)%N then keyword "null" Null s
          else
            match number_rest s with
            | Some rest =>
                Some (Number (string_take (String.length s - String.length rest) s), rest)
            | None => None
            end
      end
  end

(** The members of an object from its first key to its closing brace. *)
with parse_members (fuel : nat) (depth : N) (s : string)
    : option (list (string * value) * string) :=
  match fuel with
  | O => None
  | S fuel =>
      match s with
      | String q r =>
          if (code q =? 34)%N then
            match string_token r with
            | Some (key, r1) =>
                match skip_space r1 with
                | String colon r2 =>
                    if (code colon =? 58)%N then
                      match parse_value fuel depth (skip_space r2) with
                      | Some (v, r3) =>
                          match skip_space r3 with
                          | String d r4 =>
                              if (code d =? 125)%N then Some ([(key, v)], r4)
                              else if (code d =? 44)%N then
                                match parse_members fuel depth (skip_space r4) with
                                | Some (ms, rest) => Some ((key, v) :: ms, rest)
                                | None => None
                                end
                              else None
                          | EmptyString => None
                          end
                      | None => None
                      end
                    else None
                | EmptyString => None
                end
            | None => None
            end
          else None
      | EmptyString => None
      end
  end

(** The elements of an array from its first value to its closing bracket. *)
with parse_elements (fuel : nat) (depth : N) (s : string)
    : option (list value * string) :=
  match fuel with
  | O => None
  | S fuel =>
      match parse_value fuel depth s with
      | Some (v, r1) =>
          match skip_space r1 with
          | String d r2 =>
              if (code d =? 93)%N then Some ([v], r2)
              else if (code d =? 44)%N then
                match parse_elements fuel depth (skip_space r2) with
                | Some (vs, rest) => Some (v :: vs, rest)
                | None => None
                end
              else None
          | EmptyString => None
          end
      | None => None
      end
  end.

(** The whole of [data] as one JSON value; [None] is a syntax error. *)
Definition parse (data : string) : option value :=
  match parse_value (2 * String.length data + 2) 0 (skip_space data) with
  | Some (v, rest) =>
      match skip_space rest with
      | EmptyString => Some v
      | String _ _ => None
      end
  | None => None
  end.

(** What a member's value leaves in a string element of the map: a JSON
    string its text, null the zero value without complaint, anything else
    the zero value and a type error. *)
Definition string_elem (v : value) : string * bool :=
  match v with
  | Str s => (s, false)
  | Null => (EmptyString, false)
  | _ => (EmptyString, true)
  end.

(** [json.Unmarshal(data, &m)] for [m] of type [map[string]string]: the
    map afterwards, and the error returned. The input is checked for
    syntax before anything is stored. An object is stored member by member
    into the existing map (a fresh one if it is nil), each member under its
    key, also a member whose value is no string; null makes the map nil;
    any other value leaves the map as it is and is a type error. *)
Definition Unmarshal (data : string) (m : option (gmap string string))
    : option (gmap string string) * option error :=
  match parse data with
  | None => (m, Some SyntaxError)
  | Some Null => (None, None)
  | Some (Object members) =>
      let store (acc : gmap string string * bool) (kv : string * value) :=
        let '(s, bad) := string_elem kv.2 in (<[kv.1 := s]> acc.1, acc.2 || bad) in
      let '(m', bad) := foldl store (default ∅ m, false) members in
      (Some m', if bad then Some UnmarshalTypeError else None)
  | Some _ => (m, Some UnmarshalTypeError)
  end.

(** [json.Marshal] of a [map[string]map[string]string]. It cannot fail on
    this type; the error is part of the signature the callers test. *)
Definition Marshal_body (body : gmap string (option (gmap string string)))
    : string + error :=
  inl (encode_body body).

(** [json.Marshal(Boot{...})]: the one field is left out when empty. *)
Definition Marshal_Boot (b : Boot) : string + error :=
  inl (object_text
         (if String.eqb (Hash b) "" then [] else [member "#" (quote (Hash b))])).

Definition encode_Meta (m : Meta) : string :=
  object_text [member "username" (quote (Username m));
               member "editor" (if Editor m then "true" else "false")].

(** [json.Marshal(OpsD{...})] *)
Definition Marshal_OpsD (d : OpsD) : string + error :=
  inl (object_text
         ((if String.eqb (U d) "" then [] else [member "u" (quote (U d))])
          ++ match M d with
             | Some m => [member "m" (encode_Meta m)]
             | None => []
             end)).

End json.

(** ** The state of one connection and of what it shares *)

(** [*oauth2.Token], opaque here. *)
Definition Token := string.

(** Modelled from the spec: the declaration of [Session] (identity as
    subject and username, an optional token); client.go reads these three
    fields. *)
Record Session := {
  subject : string;
  username : string;
  token : option Token
}.

(** Modelled from the spec: the auth provider, of which client.go reads
    the configured inactivity timeout, a [time.Duration] in nanoseconds. *)
Record Auth := { InactivityTimeout : Z }.

(** Modelled from the spec: the kinds of message and the message, declared
    outside client.go. The dispatch of the read loop names three kinds; a
    message of any other kind falls through it. *)
Inductive MsgT := patchMsgT | queryMsgT | watchMsgT | otherMsgT.

Record Msg := { t : MsgT; addr : string; data : string }.

(** Modelled from the spec: the delivery modes and the application,
    declared outside client.go. The dispatch names two modes; an
    application of any other mode gets no scoped route. *)
Inductive AppMode := unicastMode | multicastMode | otherMode.

Record App := { app_name : string; mode : AppMode }.

(** Modelled from the spec: a page, as far as the read loop sees one: what
    [page.marshal()] gives, nil or bytes. *)
Record Page := { marshal : option string }.

(** Modelled from the spec: [Sub{route, c}], a subscription; the
    connection is named by its id. *)
Record Sub := { sub_route : string; sub_client : string }.

(** A call [app.forward(clientID, session, data)]; the session is the one
    the pointer led to when the call was made. *)
Record Forward := {
  fw_app : App;
  fw_client : string;
  fw_session : option Session;
  fw_data : string
}.

(** Modelled from the spec: a log line, a map of strings, written here as
    the list of its entries. *)
Definition Log := list (string * string).

(** Messages on the websocket, by gorilla's message type. *)
Inductive wsMessage :=
  | TextMessage (payload : string)
  | CloseMessage (payload : string)
  | PingMessage.

(** The connection, seen from the write side: what was written to the peer,
    whether [Close] was called, and what the transport answers. *)
Record Conn := {
  wire : list wsMessage;
  conn_closed : bool;
  write_fails : bool;     (* NextWriter and WriteMessage return an error *)
  flush_fails : bool      (* closing a message writer returns an error *)
}.

Record Client := {
  c_id : string;                (* unique id *)
  c_auth : option Auth;         (* auth provider, might be nil *)
  c_addr : string;              (* remote IP:port, used for logging only *)
  c_session : option Session;   (* end-user session *)
  c_conn : Conn;                (* connection *)
  c_routes : list string;       (* watched routes *)
  c_data : chan;                (* send data *)
  c_editable : bool;            (* allow editing? *)
  c_baseURL : string;
  c_header : option Header      (* *http.Header *)
}.

(** Modelled from the spec: the Broker and its Site, which client.go calls
    but does not declare: lookup of the application and of the page bound
    to an address, the header cache keyed by connection id, and what the
    read loop handed over: subscriptions, unsubscriptions, patches. *)
Record Site := {
  site_at : string → option Page;
  clientIDToHeaders : gmap string (option Header)
}.

Record Broker := {
  getApp : string → option App;
  site : Site;
  subscribe_ch : list Sub;           (* sent on broker.subscribe, oldest first *)
  unsubscribe_ch : list string;      (* sent on broker.unsubscribe *)
  patches : list (string * string)   (* calls of broker.patch *)
}.

(** Everything the two loops of one connection read and write. *)
Record World := {
  client : Client;
  broker : Broker;
  forwards : list Forward;   (* calls of app.forward, oldest first *)
  logs : list Log            (* calls of echo *)
}.

(** [newClient] *)
Definition newClient (clientID addr : string) (auth : option Auth)
    (session : option Session) (conn : Conn) (editable : bool)
    (baseURL : string) (header : option Header) : Client :=
  {| c_id := clientID; c_auth := auth; c_addr := addr; c_session := session;
     c_conn := conn; c_routes := []; c_data := make_chan 256;
     c_editable := editable; c_baseURL := baseURL; c_header := header |}.

(** Field updates. *)
Definition with_client (f : Client → Client) (w : World) : World :=
  {| client := f (client w); broker := broker w;
     forwards := forwards w; logs := logs w |}.

Definition with_broker (f : Broker → Broker) (w : World) : World :=
  {| client := client w; broker := f (broker w);
     forwards := forwards w; logs := logs w |}.

Definition set_session (s : option Session) (c : Client) : Client :=
  {| c_id := c_id c; c_auth := c_auth c; c_addr := c_addr c; c_session := s;
     c_conn := c_conn c; c_routes := c_routes c; c_data := c_data c;
     c_editable := c_editable c; c_baseURL := c_baseURL c; c_header := c_header c |}.

Definition set_routes (r : list string) (c : Client) : Client :=
  {| c_id := c_id c; c_auth := c_auth c; c_addr := c_addr c;
     c_session := c_session c; c_conn := c_conn c; c_routes := r;
     c_data := c_data c; c_editable := c_editable c; c_baseURL := c_baseURL c;
     c_header := c_header c |}.

Definition set_data (d : chan) (c : Client) : Client :=
  {| c_id := c_id c; c_auth := c_auth c; c_addr := c_addr c;
     c_session := c_session c; c_conn := c_conn c; c_routes := c_routes c;
     c_data := d; c_editable := c_editable c; c_baseURL := c_baseURL c;
     c_header := c_header c |}.

Definition set_conn (k : Conn) (c : Client) : Client :=
  {| c_id := c_id c; c_auth := c_auth c; c_addr := c_addr c;
     c_session := c_session c; c_conn := k; c_routes := c_routes c;
     c_data := c_data c; c_editable := c_editable c; c_baseURL := c_baseURL c;
     c_header := c_header c |}.

Definition set_token (tk : option Token) (s : Session) : Session :=
  {| subject := subject s; username := username s; token := tk |}.

Definition set_headers (h : gmap string (option Header)) (b : Broker) : Broker :=
  {| getApp := getApp b;
     site := {| site_at := site_at (site b); clientIDToHeaders := h |};
     subscribe_ch := subscribe_ch b; unsubscribe_ch := unsubscribe_ch b;
     patches := patches b |}.

Definition add_sub (s : Sub) (b : Broker) : Broker :=
  {| getApp := getApp b; site := site b;
     subscribe_ch := subscribe_ch b ++ [s]; unsubscribe_ch := unsubscribe_ch b;
     patches := patches b |}.

Definition add_unsub (id : string) (b : Broker) : Broker :=
  {| getApp := getApp b; site := site b;
     subscribe_ch := subscribe_ch b; unsubscribe_ch := unsubscribe_ch b ++ [id];
     patches := patches b |}.

Definition add_patch (a d : string) (b : Broker) : Broker :=
  {| getApp := getApp b; site := site b;
     subscribe_ch := subscribe_ch b; unsubscribe_ch := unsubscribe_ch b;
     patches := patches b ++ [(a, d)] |}.

(** ** Code that reads and writes the world and may panic *)

Definition Go (A : Type) : Type := World → result (A * World).

Definition ret {A} (a : A) : Go A := λ w, Ok (a, w).

Definition bind {A B} (m : Go A) (k : A → Go B) : Go B :=
  λ w, match m w with
       | Ok (a, w') => k a w'
       | Panic p => Panic p
       end.

Declare Scope go_scope.
Delimit Scope go_scope with go.
Notation "'let*' x := m 'in' k" := (bind m (λ x, k))
  (at level 10, x name, m at level 100, k at level 200) : go_scope.
Notation "m ;;; k" := (bind m (λ _, k))
  (at level 100, k at level 200, right associativity) : go_scope.
Open Scope go_scope.

Definition get : Go World := λ w, Ok (w, w).
Definition modify (f : World → World) : Go unit := λ w, Ok (tt, f w).
Definition throw {A} (p : panic) : Go A := λ _, Panic p.

(** Reading through a pointer. *)
Definition deref {A} (p : option A) : Go A :=
  match p with
  | Some a => ret a
  | None => throw nil_dereference
  end.

(** [echo(Log{...})] *)
Definition echo (l : Log) : Go unit :=
  modify (λ w, {| client := client w; broker := broker w;
                  forwards := forwards w; logs := logs w ++ [l] |}).

(** Modelled from the spec: [app.forward(connId, session, body)], declared
    outside client.go; its returned error is not looked at. *)
Definition forward (app : App) (clientID : string) (session : option Session)
    (body : string) : Go unit :=
  modify (λ w, {| client := client w; broker := broker w;
                  forwards := forwards w ++
                    [{| fw_app := app; fw_client := clientID;
                        fw_session := session; fw_data := body |}];
                  logs := logs w |}).

(** [func (c *Client) subscribe(route string)], lines 207-210 *)
Definition subscribe (route : string) : Go unit :=
  modify (with_client (λ c, set_routes (c_routes c ++ [route]) c)) ;;;
  let* w := get in
  modify (with_broker (add_sub {| sub_route := route; sub_client := c_id (client w) |})).

(** [func (c *Client) send(data []byte) bool], lines 212-219 *)
Definition send (data : string) : Go bool :=
  λ w, match chan_try_send (c_data (client w)) data with
       | Ok (ok, ch) => Ok (ok, with_client (set_data ch) w)
       | Panic p => Panic p
       end.

(** [func (c *Client) quit()], lines 262-264 *)
Definition quit : Go unit :=
  λ w, match chan_close (c_data (client w)) with
       | Ok ch => Ok (tt, with_client (set_data ch) w)
       | Panic p => Panic p
       end.

(** ** The read loop, client.go lines 74-205 *)

Section ReadLoop.

(** Functions of the repository that client.go calls and other files
    define. [touch] and [ensureValidOAuth2Token] read the clock and the
    network; here they are functions of what they are given. *)
Variable parseMsg : string → Msg.
Variable resolveURL : string → string → string.
Variable touch : Session → Z → Session * option string.
Variable ensureValidOAuth2Token : Auth → Token → option Token * option string.

(** [func (c *Client) refreshToken() error], lines 74-87 *)
Definition refreshToken : Go (option string) :=
  let* w := get in
  match c_auth (client w) with
  | None => ret None
  | Some auth =>
      let* session := deref (c_session (client w)) in
      match token session with
      | None => ret None
      | Some tk =>
          let '(token', err) := ensureValidOAuth2Token auth tk in
          match err with
          | Some e => ret (Some e)
          | None =>
              modify (with_client (set_session (Some (set_token token' session)))) ;;;
              ret None
          end
      end
  end.

(** The step before decoding, lines 115-122: [Some] error when the session
    has expired. *)
Definition touchSession : Go (option string) :=
  let* w := get in
  match c_session (client w), c_auth (client w) with
  | Some session, Some auth =>
      let '(session', err) := touch session (InactivityTimeout auth) in
      modify (with_client (set_session (Some session'))) ;;;
      ret err
  | _, _ => ret None
  end.

(** The arguments of a watch, lines 161-172: the boot payload, which
    holds the location hash when the message has data, decoded into a
    fresh map. *)
Definition bootArgs (data : string) : option (gmap string string) :=
  let boot :=
    if (0 <? String.length data)%nat then
      match json.Marshal_Boot {| Hash := data |} with
      | inl j => j
      | inr _ => emptyJSON
      end
    else emptyJSON in
  (json.Unmarshal boot (Some ∅)).1.

(** The arguments of a query, lines 139-142: the payload decoded into a
    fresh map, the error of the decoder dropped. *)
Definition queryArgs (data : string) : option (gmap string string) :=
  (json.Unmarshal data (Some ∅)).1.

(** [case patchMsgT], lines 127-130 *)
Definition handlePatch (m : Msg) : Go unit :=
  let* w := get in
  if c_editable (client w)
  then modify (with_broker (add_patch (addr m) (data m)))
  else ret tt.

(** [case queryMsgT], lines 131-149 *)
Definition handleQuery (m : Msg) : Go unit :=
  let* w := get in
  let c := client w in
  match getApp (broker w) (addr m) with
  | None =>
      echo [("t", "query"); ("client", c_addr c); ("route", addr m);
            ("error", "service unavailable")]
  | Some app =>
      let body : gmap string (option (gmap string string)) :=
        <["args" := queryArgs (data m)]> ∅ in
      match json.Marshal_body body with
      | inr _ =>
          echo [("t", "query"); ("client", c_addr c); ("route", addr m);
                ("error", "failed marshaling body")]
      | inl data => forward app (c_id c) (c_session c) data
      end
  end.

(** The part of [case watchMsgT] for a route an application handles,
    lines 154-188. *)
Definition watchApp (m : Msg) (app : App) : Go unit :=
  let* w := get in
  let c := client w in
  match mode app with
  | unicastMode => subscribe ("/" +:+ c_id c)
  | multicastMode =>
      let* session := deref (c_session c) in
      subscribe ("/" +:+ subject session)
  | otherMode => ret tt
  end ;;;
  let body : gmap string (option (gmap string string)) :=
    <["args" := bootArgs (data m)]> ∅ in
  let* w := get in
  let* body :=
    match clientIDToHeaders (site (broker w)) !! c_id c with
    | Some getRequestHeaders =>
        let* h1 := deref getRequestHeaders in
        let* h2 := deref (c_header c) in
        let headersMap := mergeHeaders ∅ h1 h2 in
        modify (with_broker
                  (set_headers (delete (c_id c) (clientIDToHeaders (site (broker w)))))) ;;;
        ret (<["headers" := Some headersMap]> body)
    | None => ret body
    end in
  match json.Marshal_body body with
  | inr _ =>
      echo [("t", "query"); ("client", c_addr c); ("route", addr m);
            ("error", "failed marshaling body")]
  | inl data =>
      let* w := get in
      forward app (c_id c) (c_session (client w)) data
  end.

(** The metadata frame, line 191. *)
Definition metaFrame (session : Session) (editable : bool) : string + json.error :=
  json.Marshal_OpsD
    {| U := ""; M := Some {| Username := username session; Editor := editable |} |}.

(** [case watchMsgT], lines 150-202 *)
Definition handleWatch (m : Msg) : Go unit :=
  subscribe (addr m) ;;;
  let* w := get in
  let c := client w in
  match getApp (broker w) (addr m) with
  | Some app => watchApp m app
  | None =>
      let* session := deref (c_session c) in
      match metaFrame session (c_editable c) with
      | inl headers => let* _ := send headers in ret tt
      | inr _ => ret tt
      end ;;;
      let page_data :=
        match site_at (site (broker w)) (addr m) with
        | Some page => marshal page
        | None => None
        end in
      match page_data with
      | Some data => let* _ := send data in ret tt
      | None => let* _ := send notFoundMsg in ret tt
      end
  end.

(** The steps of a turn before the frame is decoded, lines 109-116: the
    token refresh, whose failure is logged, and the touch of the session.
    The result is the error of the touch, [Some] when the session has
    expired. *)
Definition beforeDispatch : Go (option string) :=
  let* err := refreshToken in
  let* w := get in
  match err with
  | Some e =>
      echo [("t", "refresh_oauth2_token"); ("client", c_addr (client w)); ("err", e)]
  | None => ret tt
  end ;;;
  touchSession.

(** [switch m.t], lines 126-203 *)
Definition dispatch (m : Msg) : Go unit :=
  match t m with
  | patchMsgT => handlePatch m
  | queryMsgT => handleQuery m
  | watchMsgT => handleWatch m
  | otherMsgT => ret tt
  end.

(** The message of a frame, its address resolved, lines 124-125. *)
Definition decode (msg : string) (baseURL : string) : Msg :=
  let m := parseMsg msg in
  {| t := t m; addr := resolveURL (addr m) baseURL; data := data m |}.

(** The logout directive, line 117. *)
Definition logoutFrame (baseURL : string) : string + json.error :=
  json.Marshal_OpsD {| U := baseURL +:+ "_auth/logout"; M := None |}.

(** One turn of the loop of [listen] on a frame that was read, lines
    109-203. *)
Definition listenFrame (msg : string) : Go unit :=
  let* expired := beforeDispatch in
  let* w := get in
  match expired with
  | Some _ =>
      match logoutFrame (c_baseURL (client w)) with
      | inl msg => let* _ := send msg in ret tt
      | inr _ => ret tt
      end
  | None => dispatch (decode msg (c_baseURL (client w)))
  end.

(** What [conn.ReadMessage()] gives: a frame, or an error, which is an
    unexpected close error or another one. *)
Inductive readResult :=
  | Frame (msg : string)
  | ReadError (unexpected : bool) (err : string).

(** The deferred function of [listen], lines 90-93. *)
Definition listenDeferred : Go unit :=
  let* w := get in
  modify (with_broker (add_unsub (c_id (client w)))) ;;;
  modify (with_client (λ c, set_conn
    {| wire := wire (c_conn c); conn_closed := true;
       write_fails := write_fails (c_conn c);
       flush_fails := flush_fails (c_conn c) |} c)).

(** [func (c *Client) listen()] on the results of its reads so far. The
    result is [true] when the loop has ended, and [false] when it waits
    for the next frame. Read limits, read deadlines and the pong handler
    are not modelled. *)
Fixpoint listen (reads : list readResult) : Go bool :=
  match reads with
  | [] => ret false
  | Frame msg :: rest => listenFrame msg ;;; listen rest
  | ReadError unexpected err :: _ =>
      let* w := get in
      (if unexpected
       then echo [("t", "socket_read"); ("client", c_addr (client w)); ("err", err)]
       else ret tt) ;;;
      listenDeferred ;;;
      ret true
  end.

End ReadLoop.

(** ** The write loop, client.go lines 221-260 *)

(** The two cases of the [select] of [flush]. *)
Inductive selectCase := dataCase | tickerCase.

(** What one turn of the loop comes to: the loop goes on, the function
    returns, or the chosen case was not ready. *)
Inductive flushStep :=
  | Continue (w : World)
  | Return (w : World)
  | NotReady.

Definition conn_write (msg : wsMessage) (k : Conn) : Conn :=
  {| wire := wire k ++ [msg]; conn_closed := conn_closed k;
     write_fails := write_fails k; flush_fails := flush_fails k |}.

Definition conn_close (k : Conn) : Conn :=
  {| wire := wire k; conn_closed := true;
     write_fails := write_fails k; flush_fails := flush_fails k |}.

(** [for i := 0; i < n; i++ { w.Write(newline); w.Write(<-c.data) }]: the
    bytes given to the message writer so far, and the queue. [None] when a
    receive would block. *)
Fixpoint drain (n : nat) (written : string) (ch : chan) : option (string * chan) :=
  match n with
  | O => Some (written, ch)
  | S n =>
      match chan_recv ch with
      | Some (v, ch') => drain n (written +:+ newline +:+ default "" v) ch'
      | None => None
      end
  end.

(** One turn of the loop of [flush] with the case [sc] chosen. Write
    deadlines are not modelled. *)
Definition flushTurn (sc : selectCase) (w : World) : flushStep :=
  let c := client w in
  match sc with
  | dataCase =>
      match chan_recv (c_data c) with
      | None => NotReady
      | Some (None, _) =>
          (* broker closed the channel. *)
          Return (with_client (set_conn
                    (if write_fails (c_conn c) then c_conn c
                     else conn_write (CloseMessage "") (c_conn c))) w)
      | Some (Some data, ch) =>
          if write_fails (c_conn c) then Return (with_client (set_data ch) w)
          else
            match drain (chan_len ch) data ch with
            | None => NotReady
            | Some (written, ch') =>
                let w' := with_client (set_data ch') w in
                if flush_fails (c_conn c) then Return w'
                else Continue (with_client
                                 (set_conn (conn_write (TextMessage written) (c_conn c))) w')
            end
      end
  | tickerCase =>
      if write_fails (c_conn c) then Return w
      else Continue (with_client (set_conn (conn_write PingMessage (c_conn c))) w)
  end.

(** [func (c *Client) flush()] on the cases its [select] takes in turn;
    the deferred function closes the connection when the function
    returns. [None] when a chosen case was not ready. The second component
    is [true] when the function has returned. *)
Fixpoint flush (cases : list selectCase) (w : World) : option (World * bool) :=
  match cases with
  | [] => Some (w, false)
  | sc :: rest =>
      match flushTurn sc w with
      | Continue w' => flush rest w'
      | Return w' => Some (with_client (λ c, set_conn (conn_close (c_conn c)) c) w', true)
      | NotReady => None
      end
  end.

(** ** Runs of calls *)

(** [send] called on each message of [msgs] in turn: what each call
    returned. *)
Fixpoint sendAll (msgs : list string) : Go (list bool) :=
  match msgs with
  | [] => ret []
  | m :: rest =>
      let* ok := send m in
      let* oks := sendAll rest in
      ret (ok :: oks)
  end.

(** ** Sample data *)

Definition sample_conn : Conn :=
  {| wire := []; conn_closed := false; write_fails := false; flush_fails := false |}.

Definition sample_session : Session :=
  {| subject := "u-17"; username := "alice"; token := None |}.

Definition sample_app (md : AppMode) : App := {| app_name := "demo"; mode := md |}.

(** A broker with one application, bound to "/demo", and a header cache
    that holds [cached] for the connection "c1". *)
Definition sample_broker (md : AppMode) (cached : option Header) : Broker :=
  {| getApp := λ a, if String.eqb a "/demo" then Some (sample_app md) else None;
     site := {| site_at := λ _, None;
                clientIDToHeaders := <[ "c1" := cached ]> ∅ |};
     subscribe_ch := []; unsubscribe_ch := []; patches := [] |}.

(** The connection "c1" as [newClient] makes it, and its world. *)
Definition sample_client (auth : option Auth) (session : option Session)
    (own : option Header) : Client :=
  newClient "c1" "10.0.0.1:5000" auth session sample_conn true "/" own.

Definition sample_world_with (auth : option Auth) (session : option Session)
    (md : AppMode) (cached own : option Header) : World :=
  {| client := sample_client auth session own; broker := sample_broker md cached;
     forwards := []; logs := [] |}.

(** The usual case: a session and no auth provider. *)
Definition sample_world (md : AppMode) (cached own : option Header) : World :=
  sample_world_with None (Some sample_session) md cached own.

(** Headers for the examples: the connection's own, and the cached ones. *)
Definition sample_own : Header := Some {[ "A" := ["1"] ]}.
Definition sample_cached : Header := Some (<[ "B" := ["3"] ]> {[ "A" := ["2"] ]}).

(** Half an hour, in nanoseconds. *)
Definition sample_auth : Auth := {| InactivityTimeout := 1800000000000 |}.

(** ** Worlds after a call, written out *)

(** The world after [subscribe route]. *)
Definition subscribed (route : string) (w : World) : World :=
  with_broker (add_sub {| sub_route := route; sub_client := c_id (client w) |})
    (with_client (λ c, set_routes (c_routes c ++ [route]) c) w).

Definition subscribedAll (routes : list string) (w : World) : World :=
  foldl (λ w r, subscribed r w) w routes.

(** The world after [send] was called on each of [msgs] and the queue was
    open: the messages the queue had room for are at its end. *)
Definition enqueued (msgs : list string) (w : World) : World :=
  let ch := c_data (client w) in
  with_client
    (set_data {| ch_buf := ch_buf ch ++ take (ch_cap ch - chan_len ch) msgs;
                 ch_cap := ch_cap ch; ch_closed := false |}) w.

(** The world after [app.forward(c.id, c.session, body)]. *)
Definition forwarded (app : App) (body : string) (w : World) : World :=
  {| client := client w; broker := broker w;
     forwards := forwards w ++
       [{| fw_app := app; fw_client := c_id (client w);
           fw_session := c_session (client w); fw_data := body |}];
     logs := logs w |}.

(** The scoped routes a watch adds for an application of mode [md];
    [None] when the session it needs is nil. *)
Definition scopeOf (md : AppMode) (c : Client) : option (list string) :=
  match md with
  | unicastMode => Some ["/" +:+ c_id c]
  | multicastMode =>
      match c_session c with
      | Some s => Some ["/" +:+ subject s]
      | None => None
      end
  | otherMode => Some []
  end.

(** The body an application is sent on a watch: the arguments, and the
    headers when there are any to attach. *)
Definition watchBody (data : string) (headers : option (gmap string string))
    : gmap string (option (gmap string string)) :=
  match headers with
  | Some h => <["headers" := Some h]> (<["args" := bootArgs data]> ∅)
  | None => <["args" := bootArgs data]> ∅
  end.

(** The session after the token refresh of a turn, for the provider
    [auth]. *)
Definition refreshed
    (ensureValidOAuth2Token : Auth → Token → option Token * option string)
    (auth : Auth) (s : Session) : Session :=
  match token s with
  | None => s
  | Some tk =>
      match ensureValidOAuth2Token auth tk with
      | (tk', None) => set_token tk' s
      | (_, Some _) => s
      end
  end.

(** The text of the metadata frame and of the logout directive. *)
Definition metaText (s : Session) (editable : bool) : string :=
  lit "{'m':{'username':" +:+ json.quote (username s) +:+ lit ",'editor':"
    +:+ (if editable then "true" else "false") +:+ "}}".

Definition logoutText (baseURL : string) : string :=
  lit "{'u':" +:+ json.quote (baseURL +:+ "_auth/logout") +:+ "}".

(** Sample surroundings: a parser that reads every frame as [m], addresses
    that are absolute already, a session that is alive, one that has
    expired, and a token that needs no refresh. *)
Definition parse_as (m : Msg) : string → Msg := λ _, m.
Definition resolve_absolute : string → string → string := λ a _, a.
Definition touch_alive : Session → Z → Session * option string := λ s _, (s, None).
Definition touch_expired : Session → Z → Session * option string :=
  λ s _, (s, Some "session expired").
Definition token_valid : Auth → Token → option Token * option string :=
  λ _ tk, (Some tk, None).

(** ** More worlds written out, and runs of the two loops together *)

(** The world after [echo l]. *)
Definition logged (l : Log) (w : World) : World :=
  {| client := client w; broker := broker w;
     forwards := forwards w; logs := logs w ++ [l] |}.

(** The log line of a token refresh that failed with [e], line 112. *)
Definition refreshLog (w : World) (e : string) : Log :=
  [("t", "refresh_oauth2_token"); ("client", c_addr (client w)); ("err", e)].

(** The log line of a query to an address without application, line 134. *)
Definition unavailableLog (w : World) (route : string) : Log :=
  [("t", "query"); ("client", c_addr (client w)); ("route", route);
   ("error", "service unavailable")].

(** The payloads of the text messages on the wire, oldest first. *)
Fixpoint texts (msgs : list wsMessage) : list string :=
  match msgs with
  | [] => []
  | TextMessage payload :: rest => payload :: texts rest
  | _ :: rest => texts rest
  end.

(** What the peer has been written and what still waits for it, as one
    sequence of payloads. *)
Definition outbound (w : World) : list string :=
  texts (wire (c_conn (client w))) ++ ch_buf (c_data (client w)).

(** The two loops at work on the queue, one step at a time: a caller of
    [send], or a turn of the loop of [flush]. *)
Inductive queueEvent :=
  | Sends (data : string)
  | Flushes (sc : selectCase).

(** A run of such steps for as long as the write loop goes on: the
    messages [send] accepted, in order, and the world after. [None] when a
    step panics, when the chosen case of the write loop is not ready, or
    when the write loop returns. *)
Fixpoint exchange (evs : list queueEvent) (w : World) : option (list string * World) :=
  match evs with
  | [] => Some ([], w)
  | Sends data :: rest =>
      match send data w with
      | Ok (ok, w') =>
          match exchange rest w' with
          | Some (accepted, w'') =>
              Some (if ok then data :: accepted else accepted, w'')
          | None => None
          end
      | Panic _ => None
      end
  | Flushes sc :: rest =>
      match flushTurn sc w with
      | Continue w' => exchange rest w'
      | Return _ | NotReady => None
      end
  end.

(** ** What the read loop changes *)

(** The subscription of the connection of [w] to [route]. *)
Definition own_sub (w : World) (route : string) : Sub :=
  {| sub_route := route; sub_client := c_id (client w) |}.

(** [ReadError] or not. *)
Definition is_read_error (r : readResult) : bool :=
  match r with
  | ReadError _ _ => true
  | Frame _ => false
  end.

(** From [w] to [w'] the read loop has added the routes [rs], each with
    its subscription, has queued [sent], forwarded [fs], patched [ps],
    logged [ls], and has ended or not; and it has changed nothing else but
    the session it refreshes and touches and the cache entry of its own
    connection id, which it may delete. *)
Definition changes (w w' : World) (rs sent : list string) (fs : list Forward)
    (ps : list (string * string)) (ls : list Log) (ended : bool) : Prop :=
  (c_routes (client w') = c_routes (client w) ++ rs
  ∧ subscribe_ch (broker w') = subscribe_ch (broker w) ++ map (own_sub w) rs
  ∧ ch_buf (c_data (client w')) = ch_buf (c_data (client w)) ++ sent
  ∧ ch_cap (c_data (client w')) = ch_cap (c_data (client w))
  ∧ ch_closed (c_data (client w')) = ch_closed (c_data (client w))
  ∧ ((chan_len (c_data (client w)) ≤ ch_cap (c_data (client w)))%nat →
     (chan_len (c_data (client w')) ≤ ch_cap (c_data (client w')))%nat)
  ∧ forwards w' = forwards w ++ fs
  ∧ Forall (λ f, fw_client f = c_id (client w)) fs
  ∧ patches (broker w') = patches (broker w) ++ ps
  ∧ (c_editable (client w) = false → ps = [])
  ∧ logs w' = logs w ++ ls
  ∧ unsubscribe_ch (broker w') =
      unsubscribe_ch (broker w) ++ (if ended then [c_id (client w)] else [])
  ∧ c_conn (client w') = (if ended then conn_close (c_conn (client w))
                          else c_conn (client w))
  ∧ c_id (client w') = c_id (client w)
  ∧ c_auth (client w') = c_auth (client w)
  ∧ c_addr (client w') = c_addr (client w)
  ∧ c_editable (client w') = c_editable (client w)
  ∧ c_baseURL (client w') = c_baseURL (client w)
  ∧ c_header (client w') = c_header (client w)
  ∧ getApp (broker w') = getApp (broker w)
  ∧ site_at (site (broker w')) = site_at (site (broker w))
  ∧ (clientIDToHeaders (site (broker w')) = clientIDToHeaders (site (broker w))
     ∨ clientIDToHeaders (site (broker w')) =
         delete (c_id (client w)) (clientIDToHeaders (site (broker w))))
  ∧ (is_Some (c_session (client w')) ↔ is_Some (c_session (client w))))%list.

(** A world in which the read loop finds what it dereferences: a session,
    an open queue and, when the cache holds an entry for the connection,
    headers in that entry and a header of the connection's own. *)
Definition ready (w : World) : Prop :=
  is_Some (c_session (client w))
  ∧ ch_closed (c_data (client w)) = false
  ∧ ∀ h, clientIDToHeaders (site (broker w)) !! c_id (client w) = Some h →
         is_Some h ∧ is_Some (c_header (client w)).

(** Every byte of [s] is below 0x80. *)
Fixpoint all_ascii (s : string) : bool :=
  match s with
  | EmptyString => true
  | String c r => (json.code c <? 0x80)%N && all_ascii r
  end.

(** ** More sample data *)

(** A token refresh that fails. *)
Definition token_refused : Auth → Token → option Token * option string :=
  λ _ _, (None, Some "invalid_grant").

(** A session that holds a token. *)
Definition sample_session_with_token : Session :=
  {| subject := "u-17"; username := "alice"; token := Some "tok-1" |}.

(** A broker without application, with one page, at "/page". *)
Definition sample_site_broker (page : Page) : Broker :=
  {| getApp := λ _, None;
     site := {| site_at := λ a, if String.eqb a "/page" then Some page else None;
                clientIDToHeaders := ∅ |};
     subscribe_ch := []; unsubscribe_ch := []; patches := [] |}.

Definition sample_site_world (page : Page) : World :=
  {| client := sample_client None (Some sample_session) None;
     broker := sample_site_broker page; forwards := []; logs := [] |}.

(** The sample world with [queued] in the queue of the client and [conn]
    as its connection. *)
Definition sample_queue_world (queued : list string) (conn : Conn) : World :=
  with_client (set_conn conn)
    (with_client (set_data {| ch_buf := queued; ch_cap := 256;
                              ch_closed := false |})
       (sample_world unicastMode None None)).

(** A watch of the application, a patch, a query that meets no
    application, and what a run of reads may look like. *)
Definition sample_watch : Msg := {| t := watchMsgT; addr := "/demo"; data := "#inbox" |}.
Definition sample_reads : list readResult :=
  [Frame "first"; Frame "second"; ReadError true "connection reset"; Frame "late"].

(** * Properties *)

(** ** The constants *)

(** [pingPeriod]: Must be less than pongWait. *)
Lemma pingPeriod_lt_pongWait : (pingPeriod < pongWait)%Z.
Proof. reflexivity. Qed.

(** ** The model of encoding/json on examples *)

Example quote_escapes :
  json.quote (lit "a'b<c") = lit "'a\'b\u003cc'".
Proof. reflexivity. Qed.

Example marshal_boot :
  json.Marshal_Boot {| Hash := "#inbox" |} = inl (lit "{'#':'#inbox'}")
  ∧ json.Marshal_Boot {| Hash := "" |} = inl "{}".
Proof. split; reflexivity. Qed.

Example parse_object :
  json.parse (lit " { 'k' : [1, true, null, 'v'] } ")
  = Some (json.Object [("k", json.Array [json.Number "1"; json.Bool true;
                                          json.Null; json.Str "v"])]).
Proof. reflexivity. Qed.

Example parse_rejects :
  json.parse (lit "{'k':1,}") = None ∧ json.parse "01" = None
  ∧ json.parse "" = None ∧ json.parse (lit "'open") = None.
Proof. repeat split; reflexivity. Qed.

Example unmarshal_boot :
  bootArgs "#inbox" = Some {[ "#" := "#inbox" ]} ∧ bootArgs "" = Some ∅.
Proof. split; vm_compute; reflexivity. Qed.

(** A text that does not parse leaves the map as it was. *)
Lemma Unmarshal_syntax_error (data : string) (m : option (gmap string string)) :
  json.parse data = None →
  json.Unmarshal data m = (m, Some json.SyntaxError).
Proof. intros Hp. unfold json.Unmarshal. by rewrite Hp. Qed.

(** ** The fuel of the JSON parser

    The parser runs on fuel. What follows shows that the fuel it is given is
    enough: a text that parses with any fuel parses with the fuel of
    [json.parse], so that [json.parse data = None] says that [data] is no
    JSON text. *)

Lemma prepend_Some {A} (p : string) (o : option (string * A)) (d : string) (a : A) :
  json.prepend p o = Some (d, a) → ∃ d', o = Some (d', a) ∧ d = p +:+ d'.
Proof. destruct o as [[d' a']|]; [|done]. intros [= <- <-]. eauto. Qed.

Lemma hex4_length (s r : string) (n : N) :
  json.hex4 s = Some (n, r) → String.length s = (4 + String.length r)%nat.
Proof.
  unfold json.hex4. intros H. repeat case_match; simplify_eq. reflexivity.
Qed.

Lemma surrogate_pair_length (hi dec : N) (s r : string) :
  json.surrogate_pair hi s = Some (dec, r) → String.length s = (6 + String.length r)%nat.
Proof.
  unfold json.surrogate_pair. intros H. repeat case_match; simplify_eq.
  match goal with H : json.hex4 _ = Some _ |- _ => apply hex4_length in H end.
  cbn [String.length]. lia.
Qed.

Lemma string_drop_length (k : nat) (s : string) :
  (String.length (json.string_drop k s) ≤ String.length s)%nat.
Proof.
  revert s. induction k as [|k IH]; intros [|c s]; cbn; try lia.
  specialize (IH s). lia.
Qed.

Lemma string_body_enough (n : nat) : ∀ (s : string) (f : nat) r,
  (String.length s ≤ n)%nat →
  json.string_body f s = Some r →
  json.string_body (S n) s = Some r.
Proof.
  induction n as [|n IH]; intros s f [d rest] Hlen H.
  - destruct s; [|cbn in Hlen; lia]. destruct f; discriminate H.
  - destruct f as [|f]; [discriminate H|].
    destruct s as [|c r]; [discriminate H|]. cbn [String.length] in Hlen.
    remember (S n) as m eqn:Hm.
    cbn [json.string_body] in H |- *.
    repeat case_match; simplify_eq; try done;
      repeat match goal with
      | H : json.prepend _ _ = Some _ |- _ =>
          apply prepend_Some in H as (d' & H & ->)
      | H : json.hex4 _ = Some _ |- _ => apply hex4_length in H
      | H : json.surrogate_pair _ _ = Some _ |- _ => apply surrogate_pair_length in H
      end;
      cbn [String.length] in *;
      match goal with
      | H : json.string_body ?f ?s = Some ?r |- context [json.string_body (S n) ?s] =>
          rewrite (IH s f r); [reflexivity| |exact H]
      end; try lia.
    pose proof (string_drop_length n0 r). lia.
Qed.


Lemma string_body_length (f : nat) : ∀ (s d rest : string),
  json.string_body f s = Some (d, rest) → (String.length rest < String.length s)%nat.
Proof.
  induction f as [|f IH]; intros s d rest H; [discriminate H|].
  destruct s as [|c r]; [discriminate H|].
  cbn [json.string_body] in H.
  repeat case_match; simplify_eq; cbn [String.length]; try lia;
    repeat match goal with
    | H : json.prepend _ _ = Some _ |- _ =>
        apply prepend_Some in H as (d' & H & ->)
    | H : json.hex4 _ = Some _ |- _ => apply hex4_length in H
    | H : json.surrogate_pair _ _ = Some _ |- _ => apply surrogate_pair_length in H
    | H : json.string_body f _ = Some _ |- _ => apply IH in H
    end; cbn [String.length] in *; try lia.
  pose proof (string_drop_length n r). lia.
Qed.

Lemma string_token_length (s key rest : string) :
  json.string_token s = Some (key, rest) → (String.length rest < String.length s)%nat.
Proof. apply string_body_length. Qed.

Lemma skip_space_length (s s' : string) :
  json.skip_space s = s' → (String.length s' ≤ String.length s)%nat.
Proof.
  intros <-. induction s as [|c s IH]; [done|]. cbn [json.skip_space].
  destruct (json.is_space c); cbn [String.length]; lia.
Qed.

Lemma digits_length (s d r : string) :
  json.digits s = (d, r) → (String.length r ≤ String.length s)%nat.
Proof.
  revert d r. induction s as [|c s IH]; intros d r H; cbn [json.digits] in H.
  - by simplify_eq.
  - destruct (json.is_digit c); [|by simplify_eq].
    destruct (json.digits s) as [d' r'] eqn:Hd. simplify_eq.
    specialize (IH _ _ eq_refl). cbn [String.length]. lia.
Qed.

Lemma number_rest_length (s rest : string) :
  json.number_rest s = Some rest → (String.length rest < String.length s)%nat.
Proof.
  unfold json.number_rest. intros H.
  repeat case_match; simplify_eq;
    repeat match goal with
    | H : json.digits _ = _ |- _ => apply digits_length in H
    | |- context [snd (json.digits ?x)] =>
        let Hd := fresh in
        destruct (json.digits x) eqn:Hd; apply digits_length in Hd
    | H : context [snd (json.digits ?x)] |- _ =>
        let Hd := fresh in
        destruct (json.digits x) eqn:Hd; apply digits_length in Hd
    end; cbn [String.length snd] in *; simplify_eq; cbn [String.length] in *; lia.
Qed.

Lemma string_drop_exact (k : nat) (s : string) :
  (k ≤ String.length s)%nat →
  String.length (json.string_drop k s) = (String.length s - k)%nat.
Proof.
  revert s. induction k as [|k IH]; intros [|c s] Hk; cbn in *; try lia.
  apply IH. lia.
Qed.

Lemma string_take_length (k : nat) (s : string) :
  (String.length (json.string_take k s) ≤ String.length s)%nat.
Proof.
  revert s. induction k as [|k IH]; intros [|c s]; cbn; try lia.
  specialize (IH s). lia.
Qed.

Lemma keyword_length (w : string) (v v' : json.value) (s rest : string) :
  w ≠ "" →
  json.keyword w v s = Some (v', rest) → (String.length rest < String.length s)%nat.
Proof.
  unfold json.keyword. intros Hw H. case_match; simplify_eq.
  apply String.eqb_eq in H0.
  assert (String.length w ≤ String.length s)%nat as Hle.
  { rewrite <- H0 at 1. apply string_take_length. }
  rewrite string_drop_exact by done. destruct w; [done|]. cbn in *. lia.
Qed.

(** Turn what is known of a parse into what is known of lengths. *)
Ltac parse_lengths_of IHv IHm IHe :=
  repeat match goal with
  | H : json.parse_value _ _ _ = Some _ |- _ => apply IHv in H
  | H : json.parse_members _ _ _ = Some _ |- _ => apply IHm in H
  | H : json.parse_elements _ _ _ = Some _ |- _ => apply IHe in H
  | H : json.string_token _ = Some _ |- _ => apply string_token_length in H
  | H : json.skip_space _ = _ |- _ => apply skip_space_length in H
  | H : json.number_rest _ = Some _ |- _ => apply number_rest_length in H
  | H : json.keyword _ _ _ = Some _ |- _ => apply keyword_length in H; [|done]
  end;
  repeat match goal with
  | H : context [json.skip_space ?x] |- _ =>
      let L := fresh in
      pose proof (skip_space_length x _ eq_refl) as L;
      let y := fresh in
      set (y := json.skip_space x) in *; clearbody y
  end.

Lemma parse_lengths (f : nat) :
  (∀ d s v rest, json.parse_value f d s = Some (v, rest) →
     (String.length rest < String.length s)%nat)
  ∧ (∀ d s ms rest, json.parse_members f d s = Some (ms, rest) →
       (String.length rest < String.length s)%nat)
  ∧ (∀ d s vs rest, json.parse_elements f d s = Some (vs, rest) →
       (String.length rest < String.length s)%nat).
Proof.
  induction f as [|f (IHv & IHm & IHe)]; [by repeat split|].
  repeat split; intros d s x rest H;
    cbn [json.parse_value json.parse_members json.parse_elements] in H;
    repeat case_match; simplify_eq; parse_lengths_of IHv IHm IHe;
    cbn [String.length] in *; lia.
Qed.

Ltac destruct_matches_in H :=
  repeat match type of H with
  | context [match ?x with _ => _ end] => destruct x eqn:?; try discriminate H
  end.

Ltac learn_lengths :=
  repeat match goal with
  | H : json.parse_value _ _ ?s = Some (_, ?r) |- _ =>
      lazymatch goal with
      | _ : (String.length r < String.length s)%nat |- _ => fail
      | _ => pose proof (proj1 (parse_lengths _) _ _ _ _ H)
      end
  | H : json.parse_members _ _ ?s = Some (_, ?r) |- _ =>
      lazymatch goal with
      | _ : (String.length r < String.length s)%nat |- _ => fail
      | _ => pose proof (proj1 (proj2 (parse_lengths _)) _ _ _ _ H)
      end
  | H : json.parse_elements _ _ ?s = Some (_, ?r) |- _ =>
      lazymatch goal with
      | _ : (String.length r < String.length s)%nat |- _ => fail
      | _ => pose proof (proj2 (proj2 (parse_lengths _)) _ _ _ _ H)
      end
  | H : json.string_token ?s = Some (_, ?r) |- _ =>
      lazymatch goal with
      | _ : (String.length r < String.length s)%nat |- _ => fail
      | _ => pose proof (string_token_length _ _ _ H)
      end
  | H : json.skip_space ?s = ?r |- _ =>
      lazymatch goal with
      | _ : (String.length r ≤ String.length s)%nat |- _ => fail
      | _ => pose proof (skip_space_length _ _ H)
      end
  | H : context [json.parse_value _ _ (json.skip_space ?x)] |- _ =>
      lazymatch goal with
      | _ : (String.length (json.skip_space x) ≤ String.length x)%nat |- _ => fail
      | _ => pose proof (skip_space_length x _ eq_refl)
      end
  | H : context [json.parse_members _ _ (json.skip_space ?x)] |- _ =>
      lazymatch goal with
      | _ : (String.length (json.skip_space x) ≤ String.length x)%nat |- _ => fail
      | _ => pose proof (skip_space_length x _ eq_refl)
      end
  | H : context [json.parse_elements _ _ (json.skip_space ?x)] |- _ =>
      lazymatch goal with
      | _ : (String.length (json.skip_space x) ≤ String.length x)%nat |- _ => fail
      | _ => pose proof (skip_space_length x _ eq_refl)
      end
  end.

Lemma parse_enough (n : nat) :
  (∀ d s f r, (2 * String.length s ≤ n)%nat →
     json.parse_value f d s = Some r → json.parse_value (S n) d s = Some r)
  ∧ (∀ d s f r, (2 * String.length s + 1 ≤ n)%nat →
       json.parse_members f d s = Some r → json.parse_members (S n) d s = Some r)
  ∧ (∀ d s f r, (2 * String.length s + 1 ≤ n)%nat →
       json.parse_elements f d s = Some r → json.parse_elements (S n) d s = Some r).
Proof.
  induction n as [|n (IHv & IHm & IHe)].
  - repeat split; intros d s f r Hlen H; [|lia..].
    destruct s; [|cbn in Hlen; lia]. destruct f; discriminate H.
  - remember (S n) as m eqn:Hm.
    repeat split; intros d s f r Hlen H; (destruct f as [|f]; [discriminate H|]);
      cbn [json.parse_value json.parse_members json.parse_elements] in H |- *;
      destruct_matches_in H; simplify_eq; learn_lengths;
      cbn [String.length] in *;
      repeat match goal with
      | H : json.parse_value ?f ?d ?s = Some ?r |- context [json.parse_value (S n) ?d ?s] =>
          rewrite (IHv d s f r); [|cbn [String.length]; lia|exact H]
      | H : json.parse_members ?f ?d ?s = Some ?r |- context [json.parse_members (S n) ?d ?s] =>
          rewrite (IHm d s f r); [|cbn [String.length]; lia|exact H]
      | H : json.parse_elements ?f ?d ?s = Some ?r |- context [json.parse_elements (S n) ?d ?s] =>
          rewrite (IHe d s f r); [|cbn [String.length]; lia|exact H]
      | H : ?x = _ |- context [match ?x with _ => _ end] => rewrite H
      end; done.
Qed.

(** The fuel [json.parse] gives is enough: a text that parses with some
    fuel parses with it. *)
Lemma parse_fuel_enough (data : string) (f : nat) (v : json.value) (rest : string) :
  json.parse_value f 0 (json.skip_space data) = Some (v, rest) →
  json.skip_space rest = "" →
  json.parse data = Some v.
Proof.
  intros H Hrest. unfold json.parse.
  replace (2 * String.length data + 2)%nat with (S (2 * String.length data + 1)) by lia.
  rewrite (proj1 (parse_enough _) _ _ f (v, rest)); [by rewrite Hrest| |done].
  pose proof (skip_space_length data _ eq_refl). lia.
Qed.

Lemma string_token_fuel_enough (s : string) (f : nat) r :
  json.string_body f s = Some r → json.string_token s = Some r.
Proof. intros H. by apply (string_body_enough _ s f). Qed.

(** ** The header merge *)

Lemma range_join_lookup (kvs : list (string * list string))
    (acc : gmap string string) (k : string) :
  NoDup kvs.*1 →
  range_join kvs acc !! k =
    match (list_to_map kvs : gmap string (list string)) !! k with
    | Some v => Some (strings_Join v ",")
    | None => acc !! k
    end.
Proof.
  revert acc. induction kvs as [|[k0 v0] kvs IH]; intros acc Hnd.
  - cbn. by rewrite lookup_empty.
  - rewrite fmap_cons in Hnd. apply NoDup_cons in Hnd as [Hk0 Hnd].
    cbn [fst] in Hk0. cbn [range_join foldl].
    change (foldl _ ?a kvs) with (range_join kvs a).
    rewrite IH by done. cbn [list_to_map foldr fst snd uncurry].
    destruct (decide (k = k0)) as [->|Hne].
    + rewrite !lookup_insert_eq.
      by rewrite (not_elem_of_list_to_map_1 (M := gmap string) kvs k0 Hk0).
    + rewrite !lookup_insert_ne by done. done.
Qed.

(** Go visits the entries of a map in an order of its choosing; whatever
    the order, the loop leaves the same map. *)
Lemma range_join_any_order (kvs : list (string * list string))
    (h : gmap string (list string)) (acc : gmap string string) :
  kvs ≡ₚ map_to_list h →
  range_join kvs acc = range_join (map_to_list h) acc.
Proof.
  intros Hp. apply map_eq. intros k.
  assert (NoDup kvs.*1) as Hnd.
  { rewrite Hp. apply NoDup_fst_map_to_list. }
  rewrite !range_join_lookup by (done || apply NoDup_fst_map_to_list).
  rewrite list_to_map_to_list.
  by rewrite <- (list_to_map_flip h kvs).
Qed.

Lemma range_join_map (h : gmap string (list string)) (acc : gmap string string)
    (k : string) :
  range_join (map_to_list h) acc !! k =
    match h !! k with
    | Some v => Some (strings_Join v ",")
    | None => acc !! k
    end.
Proof.
  rewrite range_join_lookup by apply NoDup_fst_map_to_list.
  by rewrite list_to_map_to_list.
Qed.

Lemma mergeHeaders_lookup (headersMap : gmap string string) (h1 h2 : Header)
    (k : string) :
  mergeHeaders headersMap h1 h2 !! k =
    match header_get h1 k with
    | Some v => Some (strings_Join v ",")
    | None =>
        match header_get h2 k with
        | Some v => Some (strings_Join v ",")
        | None => headersMap !! k
        end
    end.
Proof.
  unfold mergeHeaders. destruct h1 as [m1|], h2 as [m2|]; cbn [header_get];
    rewrite ?range_join_map; done.
Qed.

(** C7. [mergeHeaders] prefers its first header argument. It writes into
    the map it is given: under each header name of [h1] the values of [h1]
    joined with a comma, under each other name of [h2] the values of [h2]
    joined with a comma, and the other entries are left as they were; into
    an empty map that is the union of the two headers, [h1] overwriting
    [h2] on a name both have. With the connection's own headers first and
    the cached ones second, the order in which the specification gives
    them, own A:1 merged with cached A:2, B:3 is A:1, B:3. The position
    decides, not the role: with the two the other way around the result is
    A:2, B:3. *)
Theorem mergeHeaders_first_wins :
  (∀ (headersMap : gmap string string) (h1 h2 : Header) (k : string),
     mergeHeaders headersMap h1 h2 !! k =
       match header_get h1 k with
       | Some v => Some (strings_Join v ",")
       | None =>
           match header_get h2 k with
           | Some v => Some (strings_Join v ",")
           | None => headersMap !! k
           end
       end)
  ∧ mergeHeaders ∅ (Some {[ "A" := ["1"] ]})
                   (Some (<[ "B" := ["3"] ]> {[ "A" := ["2"] ]}))
    = <[ "B" := "3" ]> {[ "A" := "1" ]}
  ∧ mergeHeaders ∅ (Some (<[ "B" := ["3"] ]> {[ "A" := ["2"] ]}))
                   (Some {[ "A" := ["1"] ]})
    = <[ "B" := "3" ]> {[ "A" := "2" ]}
  ∧ mergeHeaders ∅ (Some {[ "Accept" := ["text/html"; "text/plain"] ]}) None
    = {[ "Accept" := "text/html,text/plain" ]}.
Proof.
  split; [exact mergeHeaders_lookup|].
  repeat split; vm_compute; reflexivity.
Qed.

(** ** The outbound queue *)

(** Writing a field back as it was changes nothing. *)
Lemma with_client_same (w : World) :
  with_client (set_data (c_data (client w))) w = w.
Proof. by destruct w as [[] ? ? ?]. Qed.

Lemma send_open (w : World) (data : string) :
  ch_closed (c_data (client w)) = false →
  send data w =
    if (chan_len (c_data (client w)) <? ch_cap (c_data (client w)))%nat
    then Ok (true, with_client
                     (set_data {| ch_buf := ch_buf (c_data (client w)) ++ [data];
                                  ch_cap := ch_cap (c_data (client w));
                                  ch_closed := false |}) w)
    else Ok (false, w).
Proof.
  intros Hopen. unfold send, chan_try_send. rewrite Hopen.
  destruct (_ <? _)%nat; [done|]. by rewrite with_client_same.
Qed.

Lemma sendAll_open (msgs : list string) : ∀ w : World,
  ch_closed (c_data (client w)) = false →
  let ch := c_data (client w) in
  let room := ch_cap ch - chan_len ch in
  sendAll msgs w =
    Ok ((replicate (room `min` length msgs) true
           ++ replicate (length msgs - room) false)%list,
        with_client (set_data {| ch_buf := ch_buf ch ++ take room msgs;
                                 ch_cap := ch_cap ch; ch_closed := false |}) w).
Proof.
  induction msgs as [|m rest IH]; intros w Hopen ch room.
  - cbn [sendAll length]. unfold ret. rewrite Nat.min_0_r, take_nil, app_nil_r.
    cbn [replicate Nat.sub app]. do 2 f_equal. subst room ch.
    destruct w as [[? ? ? ? ? ? [] ? ? ?] ? ? ?]. cbn in *.
    subst. unfold with_client, set_data. cbn. by rewrite app_nil_r.
  - cbn [sendAll]. unfold bind at 1. rewrite send_open by done.
    fold ch. destruct (Nat.ltb_spec (chan_len ch) (ch_cap ch)) as [Hlt|Hge].
    + unfold bind at 1. rewrite IH by done. cbn [client with_client set_data c_data
        ch_buf ch_cap].
      unfold ret, chan_len. cbn [ch_buf]. rewrite length_app. cbn [length].
      assert (room = S (ch_cap ch - (length (ch_buf ch) + 1))) as ->
        by (unfold room, chan_len in *; lia).
      cbn [take Nat.min Nat.sub replicate app]. rewrite <- app_assoc.
      reflexivity.
    + unfold bind at 1. rewrite IH by done. fold ch. fold room.
      assert (room = 0) as -> by (unfold room; lia).
      cbn [ret take Nat.min Nat.sub replicate app length].
      rewrite Nat.sub_0_r. reflexivity.
Qed.

(** C5. On a queue that was not closed, [send] returns at once: [true]
    with the message put at the end of the queue when the queue has room,
    [false] with everything left as it was when it is full. The queue
    [newClient] makes holds 256 messages: of 300 messages sent to it while
    nothing is taken out, the first 256 are accepted and queued in order
    and the last 44 are refused. *)
Theorem send_never_blocks (w : World) (data : string) (msgs : list string) :
  ch_closed (c_data (client w)) = false →
  length msgs = 300 →
  send data w =
    (if (chan_len (c_data (client w)) <? ch_cap (c_data (client w)))%nat
     then Ok (true, with_client
                      (set_data {| ch_buf := ch_buf (c_data (client w)) ++ [data];
                                   ch_cap := ch_cap (c_data (client w));
                                   ch_closed := false |}) w)
     else Ok (false, w))
  ∧ (∀ id a auth session conn editable baseURL header,
       c_data (newClient id a auth session conn editable baseURL header)
       = make_chan 256)
  ∧ sendAll msgs (with_client (set_data (make_chan 256)) w) =
      Ok ((replicate 256 true ++ replicate 44 false)%list,
          with_client (set_data {| ch_buf := take 256 msgs; ch_cap := 256;
                                   ch_closed := false |}) w).
Proof.
  intros Hopen Hlen. split; [by apply send_open|]. split; [done|].
  rewrite sendAll_open by done. rewrite Hlen. reflexivity.
Qed.

(** C5 on sample data: 300 messages sent to the queue of a new client. *)
Lemma send_never_blocks_witness :
  let w := sample_world unicastMode None None in
  let msgs := replicate 300 "m" in
  sendAll msgs (with_client (set_data (make_chan 256)) w) =
    Ok ((replicate 256 true ++ replicate 44 false)%list,
        with_client (set_data {| ch_buf := take 256 msgs; ch_cap := 256;
                                 ch_closed := false |}) w).
Proof.
  intros w msgs.
  destruct (send_never_blocks w "m" msgs) as (_ & _ & H); [reflexivity..|exact H].
Defined.

(** ** The write loop *)

Lemma append_nil_r (s : string) : s +:+ "" = s.
Proof.
  induction s as [|c s IH]; [done|].
  change (String c (s +:+ "") = String c s). by rewrite IH.
Qed.

Lemma append_assoc (s1 s2 s3 : string) : (s1 +:+ s2) +:+ s3 = s1 +:+ s2 +:+ s3.
Proof.
  induction s1 as [|c s1 IH]; [done|].
  change (String c ((s1 +:+ s2) +:+ s3) = String c (s1 +:+ s2 +:+ s3)).
  by rewrite IH.
Qed.

(** The loop of [flush] takes what is queued, each after a newline. *)
Lemma drain_queue (rest : list string) : ∀ (written : string) (cap : nat) (closed : bool),
  drain (length rest) written
        {| ch_buf := rest; ch_cap := cap; ch_closed := closed |}
  = Some (strings_Join (written :: rest) newline,
          {| ch_buf := []; ch_cap := cap; ch_closed := closed |}).
Proof.
  induction rest as [|v rest IH]; intros written cap closed.
  - reflexivity.
  - cbn [length drain chan_recv ch_buf ch_cap ch_closed default].
    rewrite IH. f_equal. f_equal. unfold id.
    change (strings_Join (written :: v :: rest) newline)
      with (written +:+ newline +:+ strings_Join (v :: rest) newline).
    destruct rest as [|v' rest]; [reflexivity|].
    change (strings_Join (v :: v' :: rest) newline)
      with (v +:+ newline +:+ strings_Join (v' :: rest) newline).
    change (strings_Join ((written +:+ newline +:+ v) :: v' :: rest) newline)
      with ((written +:+ newline +:+ v) +:+ newline +:+ strings_Join (v' :: rest) newline).
    by rewrite !append_assoc.
Qed.

(** C6. When the write loop takes the data case with the messages [msgs]
    queued (at least one) and the transport accepts the write, it writes
    one text message, the payloads in the order they were queued with a
    newline between them, and leaves the queue empty; the loop goes on. *)
Theorem flush_coalesces (w : World) (first : string) (rest : list string) :
  ch_buf (c_data (client w)) = first :: rest →
  write_fails (c_conn (client w)) = false →
  flush_fails (c_conn (client w)) = false →
  flushTurn dataCase w =
    Continue
      (with_client
         (set_conn (conn_write (TextMessage (strings_Join (first :: rest) newline))
                               (c_conn (client w))))
         (with_client
            (set_data {| ch_buf := []; ch_cap := ch_cap (c_data (client w));
                         ch_closed := ch_closed (c_data (client w)) |}) w)).
Proof.
  intros Hbuf Hw Hf. unfold flushTurn, chan_recv. rewrite Hbuf, Hw.
  unfold chan_len. cbn [ch_buf]. rewrite drain_queue. by rewrite Hf.
Qed.

(** C6 on sample data: three messages queued when the write loop wakes. *)
Lemma flush_coalesces_witness :
  let w := with_client (set_data {| ch_buf := ["a"; "b"; "c"]; ch_cap := 256;
                                    ch_closed := false |})
                       (sample_world unicastMode None None) in
  wire (c_conn (client w)) = []
  ∧ ∃ w', flushTurn dataCase w = Continue w'
          ∧ wire (c_conn (client w')) = [TextMessage ("a" +:+ newline +:+ "b" +:+ newline +:+ "c")]
          ∧ ch_buf (c_data (client w')) = [].
Proof.
  intros w. split; [reflexivity|].
  eexists. split; [apply (flush_coalesces w "a" ["b"; "c"]); reflexivity|].
  split; reflexivity.
Defined.

(** ** The read loop *)

Lemma subscribe_eq (route : string) (w : World) :
  subscribe route w = Ok (tt, subscribed route w).
Proof. reflexivity. Qed.

Lemma append_cons (c : ascii) (s1 s2 : string) :
  String c s1 +:+ s2 = String c (s1 +:+ s2).
Proof. reflexivity. Qed.

(** Two texts built from the same pieces, appended in another grouping. *)
Ltac same_text :=
  repeat (rewrite append_cons || rewrite append_assoc); reflexivity.

Lemma metaFrame_text (s : Session) (editable : bool) :
  metaFrame s editable = inl (metaText s editable).
Proof.
  unfold metaFrame, metaText, json.Marshal_OpsD, json.encode_Meta,
    json.object_text, json.member, json.quote.
  cbn [U M Username Editor String.eqb app strings_Join].
  f_equal; destruct editable; same_text.
Qed.

Lemma logoutFrame_text (baseURL : string) :
  logoutFrame baseURL = inl (logoutText baseURL).
Proof.
  unfold logoutFrame, logoutText, json.Marshal_OpsD. cbn [U M].
  destruct (String.eqb_spec (baseURL +:+ "_auth/logout") "") as [He|Hne].
  - destruct baseURL; discriminate He.
  - unfold json.object_text, json.member, json.quote.
    cbn [app strings_Join]. f_equal; same_text.
Qed.

(** Reading a field of a world that was written out. *)
Ltac world_simpl :=
  cbn [subscribed subscribedAll enqueued forwarded foldl
       with_client with_broker set_session set_routes set_data set_conn
       set_headers add_sub add_unsub add_patch
       client broker forwards logs
       c_id c_auth c_addr c_session c_conn c_routes c_data c_editable
       c_baseURL c_header
       getApp site subscribe_ch unsubscribe_ch patches site_at clientIDToHeaders
       ch_buf ch_cap ch_closed] in *.

Ltac go_step :=
  progress (try unfold bind at 1; unfold get, modify, ret, deref, throw; world_simpl).

(** Running a piece of the loop under the equations [eqs] on the world. *)
Tactic Notation "go_run" "with" tactic3(rw) :=
  repeat first [rewrite subscribe_eq | rw | go_step].

Lemma send_enqueued (data : string) (w : World) :
  ch_closed (c_data (client w)) = false →
  send data w =
    Ok ((chan_len (c_data (client w)) <? ch_cap (c_data (client w)))%nat,
        enqueued [data] w).
Proof.
  intros Hopen. rewrite send_open by done. unfold enqueued.
  destruct (Nat.ltb_spec (chan_len (c_data (client w))) (ch_cap (c_data (client w))))
    as [Hlt|Hge].
  - replace (ch_cap _ - chan_len _) with (S (ch_cap (c_data (client w))
      - chan_len (c_data (client w)) - 1)) by lia.
    cbn [take]. by rewrite take_nil.
  - replace (ch_cap _ - chan_len _) with 0 by lia. cbn [take].
    rewrite app_nil_r. f_equal. f_equal.
    destruct w as [[? ? ? ? ? ? [] ? ? ?] ? ? ?]. cbn in *. by subst.
Qed.

Lemma enqueued_app (l1 l2 : list string) (w : World) :
  enqueued l2 (enqueued l1 w) = enqueued (l1 ++ l2) w.
Proof.
  unfold enqueued. world_simpl. unfold with_client, set_data. cbn.
  f_equal. f_equal. f_equal. rewrite <- app_assoc. f_equal.
  unfold chan_len. cbn [ch_buf]. rewrite length_app.
  set (room := ch_cap (c_data (client w)) - length (ch_buf (c_data (client w)))).
  rewrite take_app. rewrite length_take.
  replace (ch_cap (c_data (client w))
           - (length (ch_buf (c_data (client w))) + room `min` length l1))%nat
    with (room - room `min` length l1)%nat by lia.
  destruct (decide (room ≤ length l1)%nat) as [Hle|Hgt].
  - rewrite Nat.min_l by done. rewrite Nat.sub_diag.
    replace (room - length l1)%nat with 0%nat by lia. reflexivity.
  - rewrite Nat.min_r by lia. by rewrite take_ge by lia.
Qed.

Lemma handleWatch_unbound (m : Msg) (w : World) (s : Session) :
  getApp (broker w) (addr m) = None →
  site_at (site (broker w)) (addr m) = None →
  c_session (client w) = Some s →
  ch_closed (c_data (client w)) = false →
  handleWatch m w =
    Ok (tt, enqueued [metaText s (c_editable (client w)); notFoundMsg]
              (subscribed (addr m) w)).
Proof.
  intros Happ Hpage Hs Hopen. unfold handleWatch.
  go_step. rewrite subscribe_eq. go_step. rewrite Happ. go_step. rewrite Hs.
  go_step. rewrite metaFrame_text. go_step.
  rewrite send_enqueued by done. go_step. rewrite Hpage. go_step.
  rewrite send_enqueued by done. by rewrite enqueued_app.
Qed.

Lemma handleWatch_bound_cached (m : Msg) (w : World) (app : App)
    (scoped : list string) (cached own : Header) :
  getApp (broker w) (addr m) = Some app →
  scopeOf (mode app) (client w) = Some scoped →
  clientIDToHeaders (site (broker w)) !! c_id (client w) = Some (Some cached) →
  c_header (client w) = Some own →
  handleWatch m w =
    Ok (tt, forwarded app
              (json.encode_body (watchBody (data m) (Some (mergeHeaders ∅ cached own))))
              (with_broker
                 (set_headers (delete (c_id (client w))
                                      (clientIDToHeaders (site (broker w)))))
                 (subscribedAll (addr m :: scoped) w))).
Proof.
  intros Happ Hscope Hcache Hown. unfold handleWatch.
  go_step. rewrite subscribe_eq. go_step. rewrite Happ. unfold watchApp.
  go_step. unfold scopeOf in Hscope.
  destruct (mode app); [| destruct (c_session (client w)) eqn:Hs; [|done] |];
    injection Hscope as <-;
    go_run with (first [rewrite Hcache | rewrite Hown | rewrite Hs]);
    reflexivity.
Qed.

Lemma handleWatch_bound_uncached (m : Msg) (w : World) (app : App)
    (scoped : list string) :
  getApp (broker w) (addr m) = Some app →
  scopeOf (mode app) (client w) = Some scoped →
  clientIDToHeaders (site (broker w)) !! c_id (client w) = None →
  handleWatch m w =
    Ok (tt, forwarded app (json.encode_body (watchBody (data m) None))
              (subscribedAll (addr m :: scoped) w)).
Proof.
  intros Happ Hscope Hcache. unfold handleWatch.
  go_step. rewrite subscribe_eq. go_step. rewrite Happ. unfold watchApp.
  go_step. unfold scopeOf in Hscope.
  destruct (mode app); [| destruct (c_session (client w)) eqn:Hs; [|done] |];
    injection Hscope as <-;
    go_run with (first [rewrite Hcache | rewrite Hs]);
    reflexivity.
Qed.

Lemma subscribedAll_fields (routes : list string) : ∀ w : World,
  c_routes (client (subscribedAll routes w)) = (c_routes (client w) ++ routes)%list
  ∧ subscribe_ch (broker (subscribedAll routes w)) =
      (subscribe_ch (broker w)
         ++ map (λ r, {| sub_route := r; sub_client := c_id (client w) |}) routes)%list
  ∧ c_id (client (subscribedAll routes w)) = c_id (client w)
  ∧ c_session (client (subscribedAll routes w)) = c_session (client w)
  ∧ c_data (client (subscribedAll routes w)) = c_data (client w)
  ∧ site (broker (subscribedAll routes w)) = site (broker w)
  ∧ getApp (broker (subscribedAll routes w)) = getApp (broker w)
  ∧ c_header (client (subscribedAll routes w)) = c_header (client w)
  ∧ forwards (subscribedAll routes w) = forwards w.
Proof.
  induction routes as [|r routes IH]; intros w.
  - cbn. by rewrite !app_nil_r.
  - cbn [subscribedAll foldl]. change (foldl _ ?x routes) with (subscribedAll routes x).
    destruct (IH (subscribed r w)) as (-> & -> & -> & -> & -> & -> & -> & -> & ->).
    world_simpl. cbn [map]. rewrite <- !app_assoc. repeat split.
Qed.

Lemma Ok_world_inj {A} (a a' : A) (w w' : World) :
  Ok (a, w) = Ok (a', w') → w = w'.
Proof. by intros [= _ ->]. Qed.

Section ReadLoopProperties.

Variable parseMsg : string → Msg.
Variable resolveURL : string → string → string.
Variable touch : Session → Z → Session * option string.
Variable ensureValidOAuth2Token : Auth → Token → option Token * option string.

Abbreviation listenFrame' := (listenFrame parseMsg resolveURL touch ensureValidOAuth2Token).
Abbreviation beforeDispatch' := (beforeDispatch touch ensureValidOAuth2Token).
Abbreviation decode' := (decode parseMsg resolveURL).

(** A turn whose session has not expired decodes the frame and dispatches
    the message. *)
Lemma listenFrame_dispatch (msg : string) (w w1 : World) :
  beforeDispatch' w = Ok (None, w1) →
  listenFrame' msg w = dispatch (decode' msg (c_baseURL (client w1))) w1.
Proof. intros Hb. unfold listenFrame, bind at 1. by rewrite Hb. Qed.

(** Without an auth provider the steps before the dispatch do nothing. *)
Lemma beforeDispatch_no_auth (w : World) :
  c_auth (client w) = None → beforeDispatch' w = Ok (None, w).
Proof.
  intros Hauth. unfold beforeDispatch, refreshToken, touchSession.
  go_run with (rewrite Hauth).
  destruct (c_session (client w)); reflexivity.
Qed.

(** The steps before the dispatch write the session and the log only. *)
Lemma beforeDispatch_keeps (w w1 : World) (r : option string) :
  beforeDispatch' w = Ok (r, w1) →
  broker w1 = broker w ∧ forwards w1 = forwards w
  ∧ c_id (client w1) = c_id (client w)
  ∧ c_header (client w1) = c_header (client w)
  ∧ c_routes (client w1) = c_routes (client w)
  ∧ c_data (client w1) = c_data (client w)
  ∧ c_baseURL (client w1) = c_baseURL (client w)
  ∧ (is_Some (c_session (client w1)) ↔ is_Some (c_session (client w))).
Proof.
  destruct w as [[cid [a|] caddr [s|] conn routes dat ed base hdr] b f l];
    unfold beforeDispatch, refreshToken, touchSession, bind, get, modify, ret,
      deref, throw, echo; cbn.
  - destruct (token s) as [tk|]; cbn.
    + destruct (ensureValidOAuth2Token a tk) as [tk' [e|]]; cbn;
        match goal with |- context [touch ?x ?y] => destruct (touch x y) end;
        cbn; intros [= <- <-]; cbn; repeat split; eauto.
    + destruct (touch s (InactivityTimeout a)).
      cbn; intros [= <- <-]; cbn; repeat split; eauto.
  - done.
  - intros [= <- <-]; cbn; repeat split; eauto.
  - intros [= <- <-]; cbn; repeat split; eauto.
Qed.


(** C3. A watch of an address that no application and no page is bound
    to: the connection is subscribed to the address all the same, and
    [send] is called on the metadata frame, which holds the username of
    the session and the editable flag of the connection, and then on the
    not-found frame, and on nothing else. With the queue open, the two
    frames are at the end of the queue in that order, as far as it has
    room; nothing is forwarded. *)
Theorem watch_unbound_route (msg : string) (w w1 : World) (s : Session) :
  beforeDispatch' w = Ok (None, w1) →
  let m := decode' msg (c_baseURL (client w1)) in
  t m = watchMsgT →
  getApp (broker w1) (addr m) = None →
  site_at (site (broker w1)) (addr m) = None →
  c_session (client w1) = Some s →
  ch_closed (c_data (client w1)) = false →
  let meta := metaText s (c_editable (client w1)) in
  ∃ w2,
    listenFrame' msg w = Ok (tt, w2)
    ∧ w2 = enqueued [meta; notFoundMsg] (subscribed (addr m) w1)
    ∧ c_routes (client w2) = (c_routes (client w1) ++ [addr m])%list
    ∧ subscribe_ch (broker w2) =
        (subscribe_ch (broker w1)
           ++ [{| sub_route := addr m; sub_client := c_id (client w1) |}])%list
    ∧ ch_buf (c_data (client w2)) =
        (ch_buf (c_data (client w1))
           ++ take (ch_cap (c_data (client w1)) - chan_len (c_data (client w1)))
                   [meta; notFoundMsg])%list
    ∧ notFoundMsg = lit "{'e':'not_found'}"
    ∧ forwards w2 = forwards w1.
Proof.
  intros Hb m Ht Happ Hpage Hs Hopen meta.
  eexists. split.
  - rewrite (listenFrame_dispatch _ _ _ Hb). fold m. unfold dispatch. rewrite Ht.
    by apply handleWatch_unbound.
  - repeat split.
Qed.

(** C4. A watch of an address an application is bound to subscribes the
    connection to the address and then to one scoped route: to "/" and the
    connection id when the application is unicast, to "/" and the subject
    of the session when it is multicast. (The watch returns unless it
    reads through a nil pointer: the session of a multicast application,
    a cached header entry, or the connection's own headers when there is
    such an entry.) *)
Theorem watch_bound_subscribes (msg : string) (w w1 : World) (app : App) :
  beforeDispatch' w = Ok (None, w1) →
  let m := decode' msg (c_baseURL (client w1)) in
  t m = watchMsgT →
  getApp (broker w1) (addr m) = Some app →
  (mode app = multicastMode → is_Some (c_session (client w1))) →
  (∀ p, clientIDToHeaders (site (broker w1)) !! c_id (client w1) = Some p →
        is_Some p ∧ is_Some (c_header (client w1))) →
  ∃ w2 scoped,
    listenFrame' msg w = Ok (tt, w2)
    ∧ c_routes (client w2) = (c_routes (client w1) ++ addr m :: scoped)%list
    ∧ subscribe_ch (broker w2) =
        (subscribe_ch (broker w1)
           ++ map (λ r, {| sub_route := r; sub_client := c_id (client w1) |})
                  (addr m :: scoped))%list
    ∧ (mode app = unicastMode → scoped = ["/" +:+ c_id (client w1)])
    ∧ (∀ s, mode app = multicastMode → c_session (client w1) = Some s →
            scoped = ["/" +:+ subject s]).
Proof.
  intros Hb m Ht Happ Hsess Hptr.
  assert (∃ scoped, scopeOf (mode app) (client w1) = Some scoped
            ∧ (mode app = unicastMode → scoped = ["/" +:+ c_id (client w1)])
            ∧ (∀ s, mode app = multicastMode → c_session (client w1) = Some s →
                    scoped = ["/" +:+ subject s])) as (scoped & Hscope & Huni & Hmulti).
  { unfold scopeOf. destruct (mode app) eqn:Hmode.
    - eexists. split; [done|]. split; [done|]. intros; done.
    - destruct Hsess as [s Hs]; [done|]. rewrite Hs. eexists. split; [done|].
      split; [done|]. by intros s' _ [= ->].
    - eexists. split; [done|]. split; intros; done. }
  rewrite (listenFrame_dispatch _ _ _ Hb). fold m. unfold dispatch. rewrite Ht.
  destruct (subscribedAll_fields (addr m :: scoped) w1) as (Hr & Hsub & _).
  destruct (clientIDToHeaders (site (broker w1)) !! c_id (client w1))
    as [p|] eqn:Hcache.
  - destruct (Hptr p eq_refl) as [[cached ->] [own Hown]].
    rewrite (handleWatch_bound_cached m w1 app scoped cached own) by done.
    eexists _, scoped. split; [done|]. cbn [forwarded with_broker client broker
      set_headers subscribe_ch]. by rewrite Hr, Hsub.
  - rewrite (handleWatch_bound_uncached m w1 app scoped) by done.
    eexists _, scoped. split; [done|]. cbn [forwarded client broker].
    by rewrite Hr, Hsub.
Qed.


(** C1, as amended. A watch of an address an application is bound to, on a
    connection whose id has an entry in the header cache: the body
    forwarded to the application holds, under "headers", the merge of the
    cached headers and the connection's own headers in which the cached
    headers take precedence on a name both have (each header's values
    joined with a comma, union otherwise), and the cache entry is deleted
    afterwards. *)
Theorem watch_attaches_cached_headers (msg : string) (w w1 : World) (app : App)
    (cached own : Header) :
  beforeDispatch' w = Ok (None, w1) →
  let m := decode' msg (c_baseURL (client w1)) in
  t m = watchMsgT →
  getApp (broker w1) (addr m) = Some app →
  (mode app = multicastMode → is_Some (c_session (client w1))) →
  clientIDToHeaders (site (broker w1)) !! c_id (client w1) = Some (Some cached) →
  c_header (client w1) = Some own →
  let headers := mergeHeaders ∅ cached own in
  let body : gmap string (option (gmap string string)) :=
    <["headers" := Some headers]> (<["args" := bootArgs (data m)]> ∅) in
  ∃ w2,
    listenFrame' msg w = Ok (tt, w2)
    ∧ forwards w2 =
        (forwards w1
           ++ [{| fw_app := app; fw_client := c_id (client w1);
                  fw_session := c_session (client w1);
                  fw_data := json.encode_body body |}])%list
    ∧ body !! "headers" = Some (Some headers)
    ∧ (∀ k, headers !! k =
              match header_get cached k with
              | Some v => Some (strings_Join v ",")
              | None => (λ v, strings_Join v ",") <$> header_get own k
              end)
    ∧ clientIDToHeaders (site (broker w2)) =
        delete (c_id (client w1)) (clientIDToHeaders (site (broker w1))).
Proof.
  intros Hb m Ht Happ Hsess Hcache Hown headers body.
  assert (∃ scoped, scopeOf (mode app) (client w1) = Some scoped) as [scoped Hscope].
  { unfold scopeOf. destruct (mode app); eauto.
    destruct Hsess as [s ->]; eauto. }
  rewrite (listenFrame_dispatch _ _ _ Hb). fold m. unfold dispatch. rewrite Ht.
  rewrite (handleWatch_bound_cached m w1 app scoped cached own) by done.
  destruct (subscribedAll_fields (addr m :: scoped) w1)
    as (_ & _ & Hid & Hs & _ & _ & _ & _ & Hf).
  eexists. split; [done|]. cbn [forwarded with_broker client broker forwards
    set_headers site clientIDToHeaders]. rewrite Hid, Hs, Hf.
  split; [done|]. split; [by apply lookup_insert_eq|]. split; [|done].
  intros k. unfold headers. rewrite mergeHeaders_lookup, lookup_empty.
  destruct (header_get cached k); [done|]. by destruct (header_get own k).
Qed.

(** C2. Cached headers go out with one forwarded body at most. After a
    watch of an address an application is bound to has found the cache
    entry of the connection id, the entry is gone, and the next watch of
    that address from the connection forwards a body with its arguments
    and no headers. *)
Theorem cached_headers_once (msg1 msg2 : string) (w w1 w2 w3 : World) (app : App)
    (cached own : Header) :
  beforeDispatch' w = Ok (None, w1) →
  let m1 := decode' msg1 (c_baseURL (client w1)) in
  t m1 = watchMsgT →
  getApp (broker w1) (addr m1) = Some app →
  (mode app = multicastMode → is_Some (c_session (client w1))) →
  clientIDToHeaders (site (broker w1)) !! c_id (client w1) = Some (Some cached) →
  c_header (client w1) = Some own →
  listenFrame' msg1 w = Ok (tt, w2) →
  beforeDispatch' w2 = Ok (None, w3) →
  let m2 := decode' msg2 (c_baseURL (client w3)) in
  t m2 = watchMsgT →
  addr m2 = addr m1 →
  let body1 := watchBody (data m1) (Some (mergeHeaders ∅ cached own)) in
  let body2 := watchBody (data m2) None in
  ∃ w4,
    listenFrame' msg2 w2 = Ok (tt, w4)
    ∧ map fw_data (forwards w4) =
        (map fw_data (forwards w1)
           ++ [json.encode_body body1; json.encode_body body2])%list
    ∧ body1 !! "headers" = Some (Some (mergeHeaders ∅ cached own))
    ∧ body2 !! "headers" = None
    ∧ body2 = <["args" := bootArgs (data m2)]> ∅
    ∧ clientIDToHeaders (site (broker w2)) !! c_id (client w2) = None
    ∧ clientIDToHeaders (site (broker w4)) !! c_id (client w4) = None.
Proof.
  intros Hb m1 Ht1 Happ Hsess Hcache Hown H1 Hb2 m2 Ht2 Haddr body1 body2.
  assert (∃ scoped, scopeOf (mode app) (client w1) = Some scoped) as [scoped Hscope].
  { unfold scopeOf. destruct (mode app); eauto.
    destruct Hsess as [s ->]; eauto. }
  rewrite (listenFrame_dispatch _ _ _ Hb) in H1. fold m1 in H1.
  unfold dispatch in H1. rewrite Ht1 in H1.
  rewrite (handleWatch_bound_cached m1 w1 app scoped cached own) in H1 by done.
  apply Ok_world_inj in H1. subst w2.
  destruct (subscribedAll_fields (addr m1 :: scoped) w1)
    as (_ & _ & Hid & Hs & _ & Hsite & Hget & Hhdr & Hf).
  destruct (beforeDispatch_keeps _ _ _ Hb2)
    as (Hbr & Hfw & Hid3 & _ & _ & _ & _ & Hsome).
  cbn [forwarded with_broker client broker forwards set_headers site
       clientIDToHeaders getApp] in Hbr, Hfw, Hid3, Hsome.
  rewrite Hid in Hid3. rewrite Hs in Hsome. rewrite Hf in Hfw.
  assert (∃ scoped', scopeOf (mode app) (client w3) = Some scoped')
    as [scoped' Hscope'].
  { unfold scopeOf. destruct (mode app); eauto.
    destruct (proj2 Hsome (Hsess eq_refl)) as [s ->]; eauto. }
  rewrite (listenFrame_dispatch _ _ _ Hb2). fold m2. unfold dispatch. rewrite Ht2.
  rewrite (handleWatch_bound_uncached m2 w3 app scoped').
  - destruct (subscribedAll_fields (addr m2 :: scoped') w3)
      as (_ & _ & Hid4 & _ & _ & Hsite4 & _ & _ & Hf4).
    eexists. split; [done|]. cbn [forwarded with_broker client broker forwards
      set_headers site clientIDToHeaders]. rewrite Hid, Hid4, Hf4, Hfw, Hsite4, Hbr.
    cbn [site clientIDToHeaders fw_data]. rewrite !map_app, Hid3. cbn [map fw_data].
    rewrite <- app_assoc. split; [done|]. split; [by apply lookup_insert_eq|].
    split; [done|]. split; [done|]. split; apply lookup_delete_eq.
  - rewrite Hbr. cbn [getApp set_headers]. by rewrite Hget, Haddr.
  - done.
  - rewrite Hbr, Hid3. cbn [site clientIDToHeaders set_headers]. apply lookup_delete_eq.
Qed.


(** What the decoder leaves in a fresh map for an object. *)
Lemma queryArgs_object (data : string) (members : list (string * json.value)) :
  json.parse data = Some (json.Object members) →
  queryArgs data =
    Some (foldl (λ (acc : gmap string string) kv,
                   <[kv.1 := (json.string_elem kv.2).1]> acc) ∅ members).
Proof.
  intros Hp. unfold queryArgs, json.Unmarshal. rewrite Hp. clear Hp.
  cbn [default from_option id].
  generalize (∅ : gmap string string) false.
  induction members as [|[k v] members IH]; intros acc bad; [done|].
  cbn [foldl fst snd]. destruct (json.string_elem v) as [sv b] eqn:Hv.
  cbn [fst]. apply IH.
Qed.

(** C9, as amended. A query for an address an application is bound to is
    forwarded whatever its payload: the error of the decoder is not looked
    at, and the body holds under "args" what the decoder left in the map,
    which was empty before. That is the empty object when the payload is
    no JSON text or is a JSON value other than an object or null; it is
    null for the payload null; for an object it holds every member, a
    member whose value is no string as the empty string. *)
Theorem query_forwarded_whatever_decodes (msg : string) (w w1 : World) (app : App) :
  beforeDispatch' w = Ok (None, w1) →
  let m := decode' msg (c_baseURL (client w1)) in
  t m = queryMsgT →
  getApp (broker w1) (addr m) = Some app →
  let args := queryArgs (data m) in
  let body : gmap string (option (gmap string string)) := <["args" := args]> ∅ in
  listenFrame' msg w = Ok (tt, forwarded app (json.encode_body body) w1)
  ∧ match json.parse (data m) with
    | Some (json.Object members) =>
        args = Some (foldl (λ (acc : gmap string string) kv,
                              <[kv.1 := (json.string_elem kv.2).1]> acc) ∅ members)
    | Some json.Null =>
        (json.Unmarshal (data m) (Some ∅)).2 = None
        ∧ json.encode_body body = lit "{'args':null}"
    | _ =>
        is_Some (json.Unmarshal (data m) (Some ∅)).2
        ∧ json.encode_body body = lit "{'args':{}}"
    end.
Proof.
  intros Hb m Ht Happ args body. split.
  - rewrite (listenFrame_dispatch _ _ _ Hb). fold m. unfold dispatch. rewrite Ht.
    unfold handleQuery. go_run with (rewrite Happ). reflexivity.
  - subst body args.
    destruct (json.parse (data m)) as [[]|] eqn:Hp;
      try (by apply queryArgs_object);
      unfold queryArgs, json.Unmarshal; rewrite Hp; cbn [fst snd];
      (split; [eauto|vm_compute; reflexivity]).
Qed.

(** C10. The watch reads through the session pointer without a test. When
    the session is nil, a watch of an address no application is bound to
    panics on [session.username], and a watch of an address a multicast
    application is bound to panics on [session.subject]; the touch of the
    session before it tests for nil and passes. *)
Theorem watch_nil_session_panics (msg : string) (w w1 : World) :
  beforeDispatch' w = Ok (None, w1) →
  let m := decode' msg (c_baseURL (client w1)) in
  t m = watchMsgT →
  c_session (client w1) = None →
  (getApp (broker w1) (addr m) = None →
     listenFrame' msg w = Panic nil_dereference)
  ∧ (∀ app, getApp (broker w1) (addr m) = Some app → mode app = multicastMode →
       listenFrame' msg w = Panic nil_dereference)
  ∧ touchSession touch w1 = Ok (None, w1).
Proof.
  intros Hb m Ht Hnil.
  rewrite (listenFrame_dispatch _ _ _ Hb). fold m. unfold dispatch. rewrite Ht.
  split; [|split].
  - intros Happ. unfold handleWatch. go_run with (first [rewrite Happ | rewrite Hnil]).
    reflexivity.
  - intros app Happ Hmode. unfold handleWatch, watchApp.
    go_run with (first [rewrite Happ | rewrite Hmode | rewrite Hnil]).
    reflexivity.
  - unfold touchSession. go_run with (rewrite Hnil). reflexivity.
Qed.

End ReadLoopProperties.

(** When the touch reports expiry, the steps before the dispatch end with
    its error, and have written the session (and the log) only. *)
Lemma beforeDispatch_expired
    (touch : Session → Z → Session * option string)
    (ensureValidOAuth2Token : Auth → Token → option Token * option string)
    (w : World) (s s2 : Session) (a : Auth) (e : string) :
  c_session (client w) = Some s →
  c_auth (client w) = Some a →
  touch (refreshed ensureValidOAuth2Token a s) (InactivityTimeout a) = (s2, Some e) →
  ∃ w1,
    beforeDispatch touch ensureValidOAuth2Token w = Ok (Some e, w1)
    ∧ c_data (client w1) = c_data (client w)
    ∧ c_baseURL (client w1) = c_baseURL (client w)
    ∧ c_session (client w1) = Some s2
    ∧ broker w1 = broker w
    ∧ forwards w1 = forwards w
    ∧ c_routes (client w1) = c_routes (client w).
Proof.
  destruct w as [[cid ca caddr cs conn routes dat ed base hdr] b f l].
  cbn. intros -> -> Htouch. unfold refreshed in Htouch.
  unfold beforeDispatch, refreshToken, touchSession, bind, get, modify, ret,
    deref, throw, echo. cbn.
  destruct (token s) as [tk|]; cbn.
  - destruct (ensureValidOAuth2Token a tk) as [tk' [err|]]; cbn;
      rewrite Htouch; cbn; eexists; repeat split.
  - rewrite Htouch; cbn; eexists; repeat split.
Qed.

(** C8. On a connection with a session and an auth provider, when the
    touch of the session with the configured inactivity timeout reports
    that it has expired, the turn calls [send] on the logout directive,
    the object with the base URL followed by "_auth/logout" under "u", and
    ends: the frame is not decoded (the outcome is the same for any frame
    and any parser), nothing is handed to the broker and nothing is
    forwarded. *)
Theorem expired_session_logout
    (parseMsg parseMsg' : string → Msg)
    (resolveURL resolveURL' : string → string → string)
    (touch : Session → Z → Session * option string)
    (ensureValidOAuth2Token : Auth → Token → option Token * option string)
    (msg msg' : string) (w : World) (s s2 : Session) (a : Auth) (e : string) :
  c_session (client w) = Some s →
  c_auth (client w) = Some a →
  touch (refreshed ensureValidOAuth2Token a s) (InactivityTimeout a) = (s2, Some e) →
  ch_closed (c_data (client w)) = false →
  let logout := lit "{'u':" +:+ json.quote (c_baseURL (client w) +:+ "_auth/logout") +:+ "}" in
  ∃ w2,
    listenFrame parseMsg resolveURL touch ensureValidOAuth2Token msg w = Ok (tt, w2)
    ∧ ch_buf (c_data (client w2)) =
        (ch_buf (c_data (client w))
           ++ take (ch_cap (c_data (client w)) - chan_len (c_data (client w)))
                   [logout])%list
    ∧ c_session (client w2) = Some s2
    ∧ broker w2 = broker w
    ∧ forwards w2 = forwards w
    ∧ c_routes (client w2) = c_routes (client w)
    ∧ listenFrame parseMsg' resolveURL' touch ensureValidOAuth2Token msg' w
      = Ok (tt, w2).
Proof.
  intros Hs Ha Htouch Hopen logout.
  destruct (beforeDispatch_expired touch ensureValidOAuth2Token w s s2 a e Hs Ha Htouch)
    as (w1 & Hb & Hdata & Hbase & Hs2 & Hbr & Hfw & Hroutes).
  assert (∀ p r m, listenFrame p r touch ensureValidOAuth2Token m w
                   = Ok (tt, enqueued [logout] w1)) as Hrun.
  { intros p r m. unfold listenFrame, bind at 1. rewrite Hb.
    go_run with (rewrite logoutFrame_text).
    rewrite send_enqueued by (by rewrite Hdata). unfold logoutText.
    by rewrite Hbase. }
  exists (enqueued [logout] w1). split; [apply Hrun|].
  split; [|split; [|split; [|split; [|split]]]]; try apply Hrun;
    unfold enqueued; world_simpl; by rewrite ?Hdata.
Qed.

(** ** The properties at work on sample data *)

(** C3 on sample data: a watch of "/missing", which nothing is bound to. *)
Lemma watch_unbound_route_witness :
  let w := sample_world unicastMode None None in
  let m := {| t := watchMsgT; addr := "/missing"; data := "" |} in
  ∃ w2,
    listenFrame (parse_as m) resolve_absolute touch_alive token_valid "frame" w
      = Ok (tt, w2)
    ∧ ch_buf (c_data (client w2)) =
        [lit "{'m':{'username':'alice','editor':true}}"; lit "{'e':'not_found'}"]
    ∧ c_routes (client w2) = ["/missing"].
Proof.
  intros w m.
  destruct (watch_unbound_route (parse_as m) resolve_absolute touch_alive
              token_valid "frame" w w sample_session)
    as (w2 & H1 & _ & H3 & _ & H5 & _); try reflexivity.
  exists w2. split; [exact H1|]. split; [rewrite H5|rewrite H3]; reflexivity.
Defined.

(** C4 on sample data: a watch of "/demo", bound to a multicast
    application, by the session of subject "u-17". *)
Lemma watch_bound_subscribes_witness :
  let w := sample_world multicastMode (Some sample_cached) (Some sample_own) in
  let m := {| t := watchMsgT; addr := "/demo"; data := "" |} in
  ∃ w2,
    listenFrame (parse_as m) resolve_absolute touch_alive token_valid "frame" w
      = Ok (tt, w2)
    ∧ c_routes (client w2) = ["/demo"; "/u-17"].
Proof.
  intros w m.
  destruct (watch_bound_subscribes (parse_as m) resolve_absolute touch_alive
              token_valid "frame" w w (sample_app multicastMode))
    as (w2 & scoped & H1 & H2 & _ & _ & H5); try reflexivity.
  - intros _. eexists. reflexivity.
  - intros p Hp. vm_compute in Hp. injection Hp as <-. split; eexists; reflexivity.
  - exists w2. split; [exact H1|]. rewrite H2.
    rewrite (H5 sample_session); reflexivity.
Defined.

(** C1, as amended, on sample data: own headers A:1, cached A:2, B:3. *)
Lemma watch_attaches_cached_headers_witness :
  let w := sample_world unicastMode (Some sample_cached) (Some sample_own) in
  let m := {| t := watchMsgT; addr := "/demo"; data := "" |} in
  ∃ w2,
    listenFrame (parse_as m) resolve_absolute touch_alive token_valid "frame" w
      = Ok (tt, w2)
    ∧ map fw_data (forwards w2) = [lit "{'args':{},'headers':{'A':'2','B':'3'}}"]
    ∧ clientIDToHeaders (site (broker w2)) = ∅.
Proof.
  intros w m.
  destruct (watch_attaches_cached_headers (parse_as m) resolve_absolute touch_alive
              token_valid "frame" w w (sample_app unicastMode)
              sample_cached sample_own)
    as (w2 & H1 & H2 & _ & _ & H5); try reflexivity.
  - intros Hm. discriminate Hm.
  - exists w2. split; [exact H1|]. split; [rewrite H2|rewrite H5];
      vm_compute; reflexivity.
Defined.

(** C1, the claim as written fails. The connection's own headers are A:1,
    the cached ones A:2, B:3. With the own headers taking precedence the
    body would hold A:1, B:3 under "headers"; the body forwarded holds
    A:2, B:3. *)
Lemma watch_headers_cached_win :
  let w := sample_world unicastMode (Some sample_cached) (Some sample_own) in
  let m := {| t := watchMsgT; addr := "/demo"; data := "" |} in
  ∃ w2,
    listenFrame (parse_as m) resolve_absolute touch_alive token_valid "frame" w
      = Ok (tt, w2)
    ∧ map fw_data (forwards w2) = [lit "{'args':{},'headers':{'A':'2','B':'3'}}"]
    ∧ map fw_data (forwards w2) ≠ [lit "{'args':{},'headers':{'A':'1','B':'3'}}"].
Proof.
  intros w m. eexists. split; [vm_compute; reflexivity|].
  split; [vm_compute; reflexivity|]. vm_compute. discriminate.
Qed.

(** C2 on sample data: two watches of "/demo" in a row. *)
Lemma cached_headers_once_witness :
  let w := sample_world unicastMode (Some sample_cached) (Some sample_own) in
  let m := {| t := watchMsgT; addr := "/demo"; data := "" |} in
  let run := listenFrame (parse_as m) resolve_absolute touch_alive token_valid in
  ∃ w2 w4,
    run "first" w = Ok (tt, w2)
    ∧ run "second" w2 = Ok (tt, w4)
    ∧ map fw_data (forwards w4) =
        [lit "{'args':{},'headers':{'A':'2','B':'3'}}"; lit "{'args':{}}"].
Proof.
  intros w m run.
  set (w2 := match run "first" w with Ok (_, w') => w' | Panic _ => w end).
  assert (run "first" w = Ok (tt, w2)) as H1 by (vm_compute; reflexivity).
  destruct (cached_headers_once (parse_as m) resolve_absolute touch_alive
              token_valid "first" "second" w w w2 w2 (sample_app unicastMode)
              sample_cached sample_own)
    as (w4 & H2 & H3 & _); try reflexivity.
  - intros Hm. discriminate Hm.
  - exists w2, w4. split; [exact H1|]. split; [exact H2|].
    rewrite H3. vm_compute. reflexivity.
Defined.

(** C8 on sample data: an auth provider, and a touch that reports expiry. *)
Lemma expired_session_logout_witness :
  let w := sample_world_with (Some sample_auth) (Some sample_session)
             unicastMode None None in
  let m := {| t := watchMsgT; addr := "/demo"; data := "" |} in
  ∃ w2,
    listenFrame (parse_as m) resolve_absolute touch_expired token_valid "frame" w
      = Ok (tt, w2)
    ∧ ch_buf (c_data (client w2)) = [lit "{'u':'/_auth/logout'}"]
    ∧ forwards w2 = []
    ∧ subscribe_ch (broker w2) = [].
Proof.
  intros w m.
  destruct (expired_session_logout (parse_as m) (parse_as m) resolve_absolute
              resolve_absolute touch_expired token_valid "frame" "frame" w
              sample_session sample_session sample_auth "session expired")
    as (w2 & H1 & H2 & _ & H4 & H5 & _); try reflexivity.
  exists w2. split; [exact H1|]. split; [rewrite H2; reflexivity|].
  split; [rewrite H5|rewrite H4]; reflexivity.
Defined.

(** C9, as amended, on sample data: a payload that is cut short. *)
Lemma query_forwarded_whatever_decodes_witness :
  let w := sample_world unicastMode None None in
  let m := {| t := queryMsgT; addr := "/demo"; data := lit "{'a':" |} in
  ∃ w2,
    listenFrame (parse_as m) resolve_absolute touch_alive token_valid "frame" w
      = Ok (tt, w2)
    ∧ map fw_data (forwards w2) = [lit "{'args':{}}"].
Proof.
  intros w m.
  destruct (query_forwarded_whatever_decodes (parse_as m) resolve_absolute
              touch_alive token_valid "frame" w w (sample_app unicastMode))
    as [H1 _]; try reflexivity.
  eexists. split; [exact H1|]. vm_compute. reflexivity.
Defined.

(** C9, the claim as written fails. The payload is an object with the
    string x under a and the number 1 under b. The decoder returns a type
    error; the body forwarded does not hold the empty object under "args"
    but both members, b as the empty string. *)
Lemma query_partly_decoded :
  let w := sample_world unicastMode None None in
  let payload := lit "{'a':'x','b':1}" in
  let m := {| t := queryMsgT; addr := "/demo"; data := payload |} in
  (json.Unmarshal payload (Some ∅)).2 = Some json.UnmarshalTypeError
  ∧ ∃ w2,
      listenFrame (parse_as m) resolve_absolute touch_alive token_valid "frame" w
        = Ok (tt, w2)
      ∧ map fw_data (forwards w2) = [lit "{'args':{'a':'x','b':''}}"]
      ∧ map fw_data (forwards w2) ≠ [lit "{'args':{}}"].
Proof.
  intros w payload m. split; [vm_compute; reflexivity|].
  eexists. split; [vm_compute; reflexivity|].
  split; [vm_compute; reflexivity|]. vm_compute. discriminate.
Qed.

(** C10 on sample data: a connection without a session. *)
Lemma watch_nil_session_panics_witness :
  let w := sample_world_with None None multicastMode None None in
  let unbound := {| t := watchMsgT; addr := "/missing"; data := "" |} in
  let bound := {| t := watchMsgT; addr := "/demo"; data := "" |} in
  listenFrame (parse_as unbound) resolve_absolute touch_alive token_valid "frame" w
    = Panic nil_dereference
  ∧ listenFrame (parse_as bound) resolve_absolute touch_alive token_valid "frame" w
    = Panic nil_dereference.
Proof.
  intros w unbound bound. split.
  - apply (watch_nil_session_panics (parse_as unbound) resolve_absolute
             touch_alive token_valid "frame" w w eq_refl eq_refl eq_refl).
    reflexivity.
  - apply (watch_nil_session_panics (parse_as bound) resolve_absolute
             touch_alive token_valid "frame" w w eq_refl eq_refl eq_refl)
      with (app := sample_app multicastMode); reflexivity.
Defined.

(** * More of client.go *)

(** ** The dispatch of the read loop: patch, query without application,
    watch of a page, and the steps before the dispatch *)

Section DispatchProperties.

Variable parseMsg : string → Msg.
Variable resolveURL : string → string → string.
Variable touch : Session → Z → Session * option string.
Variable ensureValidOAuth2Token : Auth → Token → option Token * option string.

Abbreviation listenFrame'' := (listenFrame parseMsg resolveURL touch ensureValidOAuth2Token).
Abbreviation beforeDispatch'' := (beforeDispatch touch ensureValidOAuth2Token).
Abbreviation decode'' := (decode parseMsg resolveURL).


(** X2. A query for an address no application is bound to is a soft miss:
    one line goes to the log, nothing is forwarded, and nothing is sent to
    the client. *)
Theorem query_without_app_is_logged (msg : string) (w w1 : World) :
  beforeDispatch'' w = Ok (None, w1) →
  let m := decode'' msg (c_baseURL (client w1)) in
  t m = queryMsgT →
  getApp (broker w1) (addr m) = None →
  listenFrame'' msg w = Ok (tt, logged (unavailableLog w1 (addr m)) w1)
  ∧ forwards (logged (unavailableLog w1 (addr m)) w1) = forwards w1
  ∧ c_data (client (logged (unavailableLog w1 (addr m)) w1)) = c_data (client w1).
Proof.
  intros Hb m Ht Happ.
  rewrite (listenFrame_dispatch _ _ _ _ _ _ _ Hb). fold m. unfold dispatch.
  rewrite Ht. unfold handleQuery. go_run with (rewrite Happ). done.
Qed.

(** X3. A watch of an address without application but with a page: after
    the subscription and the metadata frame the page is sent as it
    marshals, and the not-found frame is not sent; a page that marshals to
    nil is answered like no page, with the not-found frame. *)
Theorem watch_page (msg : string) (w w1 : World) (s : Session) (page : Page) :
  beforeDispatch'' w = Ok (None, w1) →
  let m := decode'' msg (c_baseURL (client w1)) in
  t m = watchMsgT →
  getApp (broker w1) (addr m) = None →
  site_at (site (broker w1)) (addr m) = Some page →
  c_session (client w1) = Some s →
  ch_closed (c_data (client w1)) = false →
  listenFrame'' msg w =
    Ok (tt, enqueued [metaText s (c_editable (client w1));
                      default notFoundMsg (marshal page)]
              (subscribed (addr m) w1)).
Proof.
  intros Hb m Ht Happ Hpage Hs Hopen.
  rewrite (listenFrame_dispatch _ _ _ _ _ _ _ Hb). fold m. unfold dispatch.
  rewrite Ht. unfold handleWatch.
  go_step. rewrite subscribe_eq. go_step. rewrite Happ. go_step. rewrite Hs.
  go_step. rewrite metaFrame_text. go_step.
  rewrite send_enqueued by done. go_step. rewrite Hpage.
  destruct (marshal page) as [d|]; try go_step;
    rewrite send_enqueued by done; by rewrite enqueued_app.
Qed.

(** X4. With a session and an auth provider, the steps before the dispatch
    come to this: a token refresh that fails leaves the session as it was
    and writes one log line, and is not fatal; one that succeeds stores the
    new token; then the session is touched, and the outcome of the touch is
    the outcome of the steps. *)
Theorem beforeDispatch_with_auth (w : World) (s : Session) (a : Auth) :
  c_session (client w) = Some s →
  c_auth (client w) = Some a →
  let failure :=
    match token s with
    | Some tk => snd (ensureValidOAuth2Token a tk)
    | None => None
    end in
  let w_logged :=
    match failure with
    | Some e => logged (refreshLog w e) w
    | None => w
    end in
  let '(s2, expired) :=
    touch (refreshed ensureValidOAuth2Token a s) (InactivityTimeout a) in
  beforeDispatch'' w = Ok (expired, with_client (set_session (Some s2)) w_logged)
  ∧ (is_Some failure → refreshed ensureValidOAuth2Token a s = s).
Proof.
  destruct w as [[cid ca caddr cs conn routes dat ed base hdr] b f l].
  cbn. intros -> ->. unfold refreshed.
  unfold beforeDispatch, refreshToken, touchSession, bind, get, modify, ret,
    deref, throw, echo. cbn.
  destruct (token s) as [tk|]; cbn.
  - destruct (ensureValidOAuth2Token a tk) as [tk' [err|]]; cbn;
      match goal with |- context [touch ?x ?y] => destruct (touch x y) end;
      cbn; (split; [reflexivity|]); [done|]. by intros [? [=]].
  - destruct (touch s (InactivityTimeout a)). cbn. split; [done|]. by intros [? [=]].
Qed.

(** X5. With an auth provider and a nil session, every frame panics: the
    token refresh reads [c.session.token] before anything tests the session
    for nil. *)
Theorem auth_without_session_panics (msg : string) (w : World) (a : Auth) :
  c_auth (client w) = Some a →
  c_session (client w) = None →
  listenFrame'' msg w = Panic nil_dereference.
Proof.
  intros Ha Hs. unfold listenFrame, beforeDispatch, refreshToken.
  go_run with (first [rewrite Ha | rewrite Hs]). reflexivity.
Qed.

End DispatchProperties.
(** ** The queue and the write loop *)

Ltac split_ands := repeat match goal with |- _ ∧ _ => split end.

(** X6. [quit] closes the queue and leaves what is queued in it; it is to
    be called once, and no [send] may follow it: a second [quit] panics,
    and so does every [send] after it, whether the queue has room or
    not. *)
Theorem quit_then_send_panics (w : World) (data : string) :
  ch_closed (c_data (client w)) = false →
  ∃ w',
    quit w = Ok (tt, w')
    ∧ ch_closed (c_data (client w')) = true
    ∧ ch_buf (c_data (client w')) = ch_buf (c_data (client w))
    ∧ send data w' = Panic send_on_closed_channel
    ∧ quit w' = Panic close_of_closed_channel.
Proof.
  intros Hopen. unfold quit, chan_close. rewrite Hopen. eexists.
  split; [reflexivity|]. unfold send, quit, chan_try_send, chan_close.
  world_simpl. done.
Qed.

Lemma drain_takes (n : nat) : ∀ (written : string) (ch : chan) written' ch',
  drain n written ch = Some (written', ch') →
  ch_cap ch' = ch_cap ch ∧ ch_closed ch' = ch_closed ch
  ∧ ∃ taken, ch_buf ch = (taken ++ ch_buf ch')%list.
Proof.
  induction n as [|n IH]; intros written ch written' ch' H; cbn [drain] in H.
  - injection H as <- <-. split_ands; try done. by exists [].
  - unfold chan_recv in H. destruct ch as [[|v buf] cap closed]; cbn in H.
    + destruct closed; [|done]. apply IH in H as (-> & -> & taken & Ht).
      cbn in *. eauto.
    + apply IH in H as (-> & -> & taken & Ht). cbn in *.
      split_ands; try done. exists (v :: taken). by rewrite Ht.
Qed.

(** X7. The write loop reads and writes its own side only. Whatever cases
    its select takes, it takes messages from the front of the queue and
    never puts one in, it adds to what is on the wire and never takes back,
    and it leaves the routes, the session, the broker and what was
    forwarded alone. It closes the connection when it returns, and not
    before. *)
Theorem flush_keeps_to_its_side (cases : list selectCase) (w w' : World)
    (returned : bool) :
  flush cases w = Some (w', returned) →
  broker w' = broker w
  ∧ forwards w' = forwards w
  ∧ logs w' = logs w
  ∧ c_routes (client w') = c_routes (client w)
  ∧ c_session (client w') = c_session (client w)
  ∧ ch_cap (c_data (client w')) = ch_cap (c_data (client w))
  ∧ ch_closed (c_data (client w')) = ch_closed (c_data (client w))
  ∧ (∃ taken, ch_buf (c_data (client w)) = taken ++ ch_buf (c_data (client w')))%list
  ∧ (∃ written, wire (c_conn (client w')) = wire (c_conn (client w)) ++ written)%list
  ∧ conn_closed (c_conn (client w')) = conn_closed (c_conn (client w)) || returned.
Proof.
  revert w. induction cases as [|sc cases IH]; intros w H; cbn [flush] in H.
  - injection H as <- <-. rewrite orb_false_r. split_ands; try done;
      exists []; by rewrite ?app_nil_r.
  - assert (∀ w1, (flushTurn sc w = Continue w1 ∨ flushTurn sc w = Return w1) →
      broker w1 = broker w ∧ forwards w1 = forwards w ∧ logs w1 = logs w
      ∧ c_routes (client w1) = c_routes (client w)
      ∧ c_session (client w1) = c_session (client w)
      ∧ ch_cap (c_data (client w1)) = ch_cap (c_data (client w))
      ∧ ch_closed (c_data (client w1)) = ch_closed (c_data (client w))
      ∧ (∃ taken, ch_buf (c_data (client w)) = taken ++ ch_buf (c_data (client w1)))%list
      ∧ (∃ written, wire (c_conn (client w1)) = wire (c_conn (client w)) ++ written)%list
      ∧ conn_closed (c_conn (client w1)) = conn_closed (c_conn (client w))) as Hturn.
    { intros w1 Hw1. unfold flushTurn, chan_recv in Hw1.
      destruct w as [[cid ca caddr cs [wr cl wf ff] routes [buf cap closed] ed base hdr] b f l].
      cbn in Hw1 |- *.
      destruct sc, buf as [|v buf], closed, wf; cbn in Hw1;
        try (destruct Hw1 as [[=]|[=]]; subst; cbn;
             split_ands; try done;
             first [by exists [] | by exists [v] | exists []; by rewrite app_nil_r
                   | by eexists [_]]);
        (destruct (drain (length buf) v _) as [[written ch']|] eqn:Hd; cbn in Hw1;
         [|by destruct Hw1]);
        apply drain_takes in Hd as (Hcap & Hcl & taken & Ht); cbn in Hcap, Hcl, Ht;
        destruct ff; destruct Hw1 as [[=]|[=]]; subst; cbn;
        split_ands; try done;
        first [by exists (v :: taken) | exists []; by rewrite app_nil_r
              | by eexists [_]]. }
    destruct (flushTurn sc w) as [w1|w1|] eqn:Hsc; [| |done].
    + destruct (Hturn w1 (or_introl eq_refl))
        as (Hb & Hf & Hl & Hr & Hs & Hcap & Hcl & [t1 Ht1] & [x1 Hx1] & Hcc).
      destruct (IH w1 H)
        as (-> & -> & -> & -> & -> & -> & -> & [t2 Ht2] & [x2 Hx2] & ->).
      rewrite Hb, Hf, Hl, Hr, Hs, Hcap, Hcl, Hcc. split_ands; try done.
      * exists (t1 ++ t2)%list. by rewrite Ht1, Ht2, app_assoc.
      * exists (x1 ++ x2)%list. by rewrite Hx2, Hx1, app_assoc.
    + injection H as <- <-.
      destruct (Hturn w1 (or_intror eq_refl))
        as (Hb & Hf & Hl & Hr & Hs & Hcap & Hcl & Ht1 & Hx1 & Hcc).
      world_simpl. unfold conn_close. cbn. rewrite orb_true_r.
      split_ands; done.
Qed.

(** X8. What was queued before [quit] is written before the close frame.
    With the messages [queued] in the queue when it is closed and a
    transport that takes the writes, the write loop writes them as one text
    message, then the close message on its next turn, returns and closes
    the connection; with nothing queued it writes the close message at
    once. *)
Theorem flush_drains_before_close (w : World) (queued : list string) :
  ch_buf (c_data (client w)) = queued →
  ch_closed (c_data (client w)) = false →
  write_fails (c_conn (client w)) = false →
  flush_fails (c_conn (client w)) = false →
  let batch := match queued with
               | [] => []
               | _ => [TextMessage (strings_Join queued newline)]
               end in
  ∃ w1 w2,
    quit w = Ok (tt, w1)
    ∧ flush (replicate (length batch + 1) dataCase) w1 = Some (w2, true)
    ∧ wire (c_conn (client w2)) =
        (wire (c_conn (client w)) ++ batch ++ [CloseMessage ""])%list
    ∧ ch_buf (c_data (client w2)) = []
    ∧ conn_closed (c_conn (client w2)) = true.
Proof.
  destruct w as [[cid ca caddr cs [wr cl wf ff] routes [buf cap closed] ed base hdr] b f l].
  cbn. intros -> -> -> ->. unfold quit, chan_close. cbn.
  destruct queued as [|first rest]; cbn [length replicate Nat.add flush].
  - eexists _, _. split; [reflexivity|]. cbn. split; [reflexivity|]. done.
  - eexists _, _. split; [reflexivity|].
    unfold flushTurn at 1, chan_recv. cbn. unfold chan_len. cbn.
    rewrite drain_queue. cbn. split; [reflexivity|]. cbn.
    by rewrite <- app_assoc.
Qed.

(** X9. A transport error ends the write loop, and what the loop had
    taken from the queue is lost. When getting the writer fails, the
    message taken first is gone and the others stay queued; when closing
    the writer fails, the whole batch is gone. Either way nothing reaches
    the wire, the function returns and the connection is closed. *)
Theorem flush_transport_error (w : World) (first : string) (rest : list string)
    (cases : list selectCase) :
  ch_buf (c_data (client w)) = first :: rest →
  write_fails (c_conn (client w)) = true ∨ flush_fails (c_conn (client w)) = true →
  ∃ w',
    flush (dataCase :: cases) w = Some (w', true)
    ∧ wire (c_conn (client w')) = wire (c_conn (client w))
    ∧ conn_closed (c_conn (client w')) = true
    ∧ ch_buf (c_data (client w')) =
        (if write_fails (c_conn (client w)) then rest else []).
Proof.
  destruct w as [[cid ca caddr cs [wr cl wf ff] routes [buf cap closed] ed base hdr] b f l].
  cbn. intros -> Herr. unfold flushTurn, chan_recv. cbn.
  destruct wf; cbn.
  - eexists. split; [reflexivity|]. done.
  - destruct Herr as [[=]| ->]. unfold chan_len. cbn. rewrite drain_queue. cbn.
    eexists. split; [reflexivity|]. done.
Qed.

Lemma strings_Join_app (l1 l2 : list string) (sep : string) :
  l1 ≠ [] → l2 ≠ [] →
  strings_Join (l1 ++ l2) sep = strings_Join l1 sep +:+ sep +:+ strings_Join l2 sep.
Proof.
  intros H1 H2. induction l1 as [|x [|y l1] IH]; [done| |].
  - destruct l2; [done|]. reflexivity.
  - change (strings_Join ((x :: y :: l1) ++ l2) sep)
      with (x +:+ sep +:+ strings_Join ((y :: l1) ++ l2) sep).
    rewrite IH by done.
    change (strings_Join (x :: y :: l1) sep)
      with (x +:+ sep +:+ strings_Join (y :: l1) sep).
    by rewrite !append_assoc.
Qed.

(** A batch written as one message spells what its messages spell. *)
Lemma strings_Join_batch (l : list string) (x : string) (r : list string)
    (sep : string) :
  strings_Join (l ++ [strings_Join (x :: r) sep]) sep = strings_Join (l ++ x :: r) sep.
Proof.
  destruct l as [|y l]; [reflexivity|].
  rewrite !(strings_Join_app (y :: l)) by done. reflexivity.
Qed.

Lemma strings_Join_batch_in (l : list string) (x : string) (r tail : list string)
    (sep : string) :
  strings_Join (l ++ [strings_Join (x :: r) sep] ++ tail) sep
  = strings_Join (l ++ (x :: r) ++ tail) sep.
Proof.
  destruct tail as [|y tail]; [by rewrite !app_nil_r, strings_Join_batch|].
  rewrite !app_assoc.
  rewrite (strings_Join_app (l ++ [_])), (strings_Join_app (l ++ _ :: _));
    try done; try (by destruct l).
  by rewrite strings_Join_batch.
Qed.

Lemma texts_app (l1 l2 : list wsMessage) : texts (l1 ++ l2) = (texts l1 ++ texts l2)%list.
Proof.
  induction l1 as [|[] l1 IH]; cbn; by rewrite ?IH.
Qed.

(** X10. Between [send] and the write loop nothing is lost, doubled or
    put out of order. Over any run of calls of [send] and turns of the
    write loop, for as long as the loop goes on: the text messages on the
    wire followed by what is still queued spell, joined by newlines, what
    they spelled before followed by the messages [send] accepted, in the
    order it accepted them. *)
Theorem exchange_keeps_order (evs : list queueEvent) : ∀ (w w' : World)
    (accepted : list string),
  exchange evs w = Some (accepted, w') →
  strings_Join (outbound w') newline
  = strings_Join (outbound w ++ accepted) newline.
Proof.
  induction evs as [|[data|sc] evs IH]; intros w w' accepted H; cbn [exchange] in H.
  - injection H as <- <-. by rewrite app_nil_r.
  - unfold send, chan_try_send in H.
    destruct (ch_closed (c_data (client w))) eqn:Hcl; [done|].
    destruct (chan_len (c_data (client w)) <? ch_cap (c_data (client w)))%nat;
      destruct (exchange evs _) as [[acc w'']|] eqn:He; try done;
      injection H as <- <-; rewrite (IH _ _ _ He); unfold outbound; world_simpl.
    + by rewrite <- !app_assoc.
    + done.
  - destruct (flushTurn sc w) as [w1| |] eqn:Hsc; [|done..].
    rewrite (IH _ _ _ H). clear IH H.
    destruct w as [[cid ca caddr cs [wr cl wf ff] routes [buf cap closed] ed base hdr] b f l].
    unfold flushTurn, chan_recv, outbound in *. cbn in Hsc |- *.
    destruct sc.
    + destruct buf as [|first rest]; [by destruct closed|]. cbn in Hsc.
      destruct wf; [done|]. unfold chan_len in Hsc. cbn in Hsc.
      rewrite drain_queue in Hsc. cbn in Hsc. destruct ff; [done|].
      injection Hsc as <-. cbn. rewrite texts_app. cbn [texts].
      rewrite app_nil_r, <- !app_assoc.
      change (match rest with
              | [] => first
              | _ :: _ => first +:+ newline +:+ strings_Join rest newline
              end) with (strings_Join (first :: rest) newline).
      apply strings_Join_batch_in.
    + destruct wf; [done|]. injection Hsc as <-. cbn. rewrite texts_app. cbn.
      by rewrite app_nil_r.
Qed.
(** ** What the read loop changes, turn by turn and over a run *)

Lemma changes_nothing (w : World) : changes w w [] [] [] [] [] false.
Proof.
  unfold changes. rewrite !app_nil_r. split_ands; try done. by left.
Qed.

Lemma changes_then (w w1 w2 : World) rs1 rs2 sent1 sent2 fs1 fs2 ps1 ps2 ls1 ls2
    (ended : bool) :
  changes w w1 rs1 sent1 fs1 ps1 ls1 false →
  changes w1 w2 rs2 sent2 fs2 ps2 ls2 ended →
  changes w w2 (rs1 ++ rs2) (sent1 ++ sent2) (fs1 ++ fs2) (ps1 ++ ps2)
          (ls1 ++ ls2) ended.
Proof.
  unfold changes, own_sub.
  intros (Hr1 & Hs1 & Hq1 & Hcap1 & Hcl1 & Hb1 & Hf1 & Ht1 & Hp1 & He1 & Hl1 & Hu1
          & Hc1 & Hid1 & Hau1 & Had1 & Hed1 & Hba1 & Hh1 & Hg1 & Hsa1 & Hca1 & Hse1)
         (Hr2 & Hs2 & Hq2 & Hcap2 & Hcl2 & Hb2 & Hf2 & Ht2 & Hp2 & He2 & Hl2 & Hu2
          & Hc2 & Hid2 & Hau2 & Had2 & Hed2 & Hba2 & Hh2 & Hg2 & Hsa2 & Hca2 & Hse2).
  rewrite Hid1, Hed1 in *. rewrite app_nil_r in Hu1.
  split_ands.
  - by rewrite Hr2, Hr1, app_assoc.
  - by rewrite Hs2, Hs1, map_app, app_assoc.
  - by rewrite Hq2, Hq1, app_assoc.
  - by rewrite Hcap2.
  - by rewrite Hcl2.
  - auto.
  - by rewrite Hf2, Hf1, app_assoc.
  - by apply Forall_app.
  - by rewrite Hp2, Hp1, app_assoc.
  - intros He. by rewrite He1, He2.
  - by rewrite Hl2, Hl1, app_assoc.
  - by rewrite Hu2, Hu1.
  - by rewrite Hc2, Hc1.
  - by rewrite Hid2.
  - by rewrite Hau2.
  - by rewrite Had2.
  - by rewrite Hed2.
  - by rewrite Hba2.
  - by rewrite Hh2.
  - by rewrite Hg2.
  - by rewrite Hsa2.
  - destruct Hca1 as [E1|E1], Hca2 as [E2|E2]; rewrite E2, E1; auto.
    right. apply delete_delete_eq.
  - by rewrite Hse2.
Qed.

Ltac turn_cbn :=
  cbn [with_client with_broker set_session set_routes set_data set_conn
       set_headers add_sub add_unsub add_patch set_token
       client broker forwards logs
       c_id c_auth c_addr c_session c_conn c_routes c_data c_editable
       c_baseURL c_header
       getApp site subscribe_ch unsubscribe_ch patches site_at clientIDToHeaders
       ch_buf ch_cap ch_closed chan_len t addr data U M] in *.

Ltac turn_unfold H :=
  unfold listenFrame, beforeDispatch, refreshToken, touchSession, dispatch,
    decode, handlePatch, handleQuery, handleWatch, watchApp, subscribe, send,
    chan_try_send, forward, echo, deref, bind, get, modify, ret, throw,
    logoutFrame, metaFrame, json.Marshal_OpsD, json.Marshal_body in H;
  turn_cbn.

Ltac changes_leaf :=
  unfold changes, own_sub; turn_cbn;
  repeat match goal with
         | H : (_ <? _)%nat = true |- _ => apply Nat.ltb_lt in H
         end;
  rewrite <- ?app_assoc; cbn [app map];
  eexists _, _, _, _; split_ands;
  first
    [ reflexivity
    | symmetry; apply app_nil_r
    | by left
    | by right
    | by repeat constructor
    | unfold chan_len in *; cbn [ch_buf ch_cap length] in *;
      rewrite ?length_app in *; cbn [length] in *; lia
    | done
    | by split; intros; eauto ].

Ltac changes_cases H :=
  turn_unfold H; repeat (case_match; simplify_eq; turn_cbn).

Lemma handlePatch_changes (m : Msg) (w w' : World) :
  handlePatch m w = Ok (tt, w') →
  ∃ ps, changes w w' [] [] [] ps [] false ∧ (length ps ≤ 1)%nat.
Proof.
  destruct w as [[cid ca caddr cs conn routes [buf cap closed] ed base hdr]
                 [ga [sat cache] subs unsubs pats] fw lg].
  intros H. changes_cases H.
  all: unfold changes, own_sub; turn_cbn; eexists; split_ands;
    first [ reflexivity | symmetry; apply app_nil_r | by left | done
          | cbn [length]; lia ].
Qed.

Lemma handleQuery_changes (m : Msg) (w w' : World) :
  handleQuery m w = Ok (tt, w') →
  ∃ fs ls, changes w w' [] [] fs [] ls false ∧ (length fs + length ls ≤ 1)%nat.
Proof.
  destruct w as [[cid ca caddr cs conn routes [buf cap closed] ed base hdr]
                 [ga [sat cache] subs unsubs pats] fw lg].
  intros H. changes_cases H.
  all: unfold changes, own_sub; turn_cbn; eexists _, _; split_ands;
    first [ reflexivity | symmetry; apply app_nil_r | by left | done
          | by repeat constructor | cbn [length]; lia ].
Qed.

Lemma handleWatch_changes (m : Msg) (w w' : World) :
  handleWatch m w = Ok (tt, w') →
  ∃ rs sent fs ls,
    changes w w' rs sent fs [] ls false
    ∧ (length rs ≤ 2 ∧ length sent ≤ 2 ∧ length fs + length ls ≤ 1)%nat.
Proof.
  destruct w as [[cid ca caddr cs conn routes [buf cap closed] ed base hdr]
                 [ga [sat cache] subs unsubs pats] fw lg].
  intros H. changes_cases H.
  all: changes_leaf.
Qed.

Lemma send_changes (data : string) (w w' : World) (ok : bool) :
  send data w = Ok (ok, w') →
  changes w w' [] (if ok then [data] else []) [] [] [] false.
Proof.
  destruct w as [[cid ca caddr cs conn routes [buf cap closed] ed base hdr]
                 [ga [sat cache] subs unsubs pats] fw lg].
  intros H. changes_cases H.
  all: repeat match goal with
              | H : (_ <? _)%nat = true |- _ => apply Nat.ltb_lt in H
              end.
  all: unfold changes, own_sub; turn_cbn; split_ands;
    first [ reflexivity | symmetry; apply app_nil_r | by left | done
          | unfold chan_len in *; cbn [ch_buf ch_cap length] in *;
            rewrite ?length_app in *; cbn [length] in *; lia ].
Qed.

Lemma bind_Ok {A B} (m : Go A) (k : A → Go B) (w w' : World) (b : B) :
  bind m k w = Ok (b, w') → ∃ a w1, m w = Ok (a, w1) ∧ k a w1 = Ok (b, w').
Proof.
  unfold bind. destruct (m w) as [[a w1]|p]; [eauto|discriminate].
Qed.

Lemma bind_get {B} (k : World → Go B) (w : World) : bind get k w = k w w.
Proof. reflexivity. Qed.

Section ReadLoopChanges.

Variable parseMsg : string → Msg.
Variable resolveURL : string → string → string.
Variable touch : Session → Z → Session * option string.
Variable ensureValidOAuth2Token : Auth → Token → option Token * option string.

#[local] Abbreviation listenFrame3 :=
  (listenFrame parseMsg resolveURL touch ensureValidOAuth2Token).
#[local] Abbreviation listen3 :=
  (listen parseMsg resolveURL touch ensureValidOAuth2Token).

Lemma beforeDispatch_changes (w w' : World) (expired : option string) :
  beforeDispatch touch ensureValidOAuth2Token w = Ok (expired, w') →
  ∃ ls, changes w w' [] [] [] [] ls false ∧ (length ls ≤ 1)%nat.
Proof.
  destruct w as [[cid ca caddr cs conn routes [buf cap closed] ed base hdr]
                 [ga [sat cache] subs unsubs pats] fw lg].
  intros H. changes_cases H.
  all: unfold changes, own_sub; turn_cbn; eexists; split_ands;
    first [ reflexivity | symmetry; apply app_nil_r | by left | done
          | by split; intros; eauto | cbn [length]; lia ].
Qed.

Lemma dispatch_changes (m : Msg) (w w' : World) :
  dispatch m w = Ok (tt, w') →
  ∃ rs sent fs ps ls,
    changes w w' rs sent fs ps ls false
    ∧ (length rs ≤ 2 ∧ length sent ≤ 2 ∧ length fs ≤ 1 ∧ length ps ≤ 1
       ∧ length ls ≤ 1)%nat.
Proof.
  unfold dispatch. intros H. destruct (t m).
  - apply handlePatch_changes in H as (ps & Hc & Hb).
    exists [], [], [], ps, []. split; [done|cbn [length]; lia].
  - apply handleQuery_changes in H as (fs & ls & Hc & Hb).
    exists [], [], fs, [], ls. split; [done|cbn [length]; lia].
  - apply handleWatch_changes in H as (rs & sent & fs & ls & Hc & Hb).
    exists rs, sent, fs, [], ls. split; [done|cbn [length]; lia].
  - injection H as <-. exists [], [], [], [], [].
    split; [apply changes_nothing|cbn [length]; lia].
Qed.

(** What one turn of the read loop changes. *)
Lemma listenFrame_changes (msg : string) (w w' : World) :
  listenFrame3 msg w = Ok (tt, w') →
  ∃ rs sent fs ps ls,
    changes w w' rs sent fs ps ls false
    ∧ (length rs ≤ 2 ∧ length sent ≤ 2 ∧ length fs ≤ 1 ∧ length ps ≤ 1
       ∧ length ls ≤ 2)%nat.
Proof.
  unfold listenFrame. intros H.
  apply bind_Ok in H as (expired & w1 & Hb & H).
  apply beforeDispatch_changes in Hb as (ls0 & Hc0 & Hl0).
  rewrite bind_get in H.
  destruct expired as [e|].
  - destruct (logoutFrame (c_baseURL (client w1))) as [text|err].
    + apply bind_Ok in H as (ok & w2 & Hs & H). injection H as <-.
      apply send_changes in Hs.
      pose proof (changes_then _ _ _ _ _ _ _ _ _ _ _ _ _ _ Hc0 Hs) as Hc.
      eexists _, _, _, _, _. split; [exact Hc|].
      destruct ok; cbn [length app]; rewrite ?length_app; cbn [length]; lia.
    + injection H as <-.
      exists [], [], [], [], ls0. split; [done|cbn [length]; lia].
  - apply dispatch_changes in H as (rs & sent & fs & ps & ls & Hc1 & Hb1).
    pose proof (changes_then _ _ _ _ _ _ _ _ _ _ _ _ _ _ Hc0 Hc1) as Hc.
    eexists _, _, _, _, _. split; [exact Hc|].
    cbn [length app]; rewrite ?length_app; lia.
Qed.

Lemma listenDeferred_changes (w w' : World) :
  listenDeferred w = Ok (tt, w') → changes w w' [] [] [] [] [] true.
Proof.
  destruct w as [[cid ca caddr cs conn routes [buf cap closed] ed base hdr]
                 [ga [sat cache] subs unsubs pats] fw lg].
  unfold listenDeferred, bind, get, modify. turn_cbn. intros H. simplify_eq.
  unfold changes, own_sub, conn_close; turn_cbn; split_ands;
    first [ reflexivity | symmetry; apply app_nil_r | by left | done ].
Qed.

(** What a run of the read loop changes. *)
Lemma listen_changes (reads : list readResult) (w w' : World) (ended : bool) :
  listen3 reads w = Ok (ended, w') →
  ended = existsb is_read_error reads
  ∧ ∃ rs sent fs ps ls,
      changes w w' rs sent fs ps ls ended
      ∧ (length rs ≤ 2 * length reads ∧ length sent ≤ 2 * length reads
         ∧ length fs ≤ length reads ∧ length ps ≤ length reads
         ∧ length ls ≤ 2 * length reads)%nat.
Proof.
  revert w. induction reads as [|[msg|unexpected err] rest IH]; intros w H.
  - injection H as <- <-. split; [done|].
    exists [], [], [], [], []. split; [apply changes_nothing|cbn [length]; lia].
  - cbn [listen] in H. apply bind_Ok in H as ([] & w1 & Hf & H).
    apply listenFrame_changes in Hf as (rs & sent & fs & ps & ls & Hc1 & Hb1).
    apply IH in H as (-> & rs2 & sent2 & fs2 & ps2 & ls2 & Hc2 & Hb2).
    split; [done|].
    eexists _, _, _, _, _.
    split; [exact (changes_then _ _ _ _ _ _ _ _ _ _ _ _ _ _ Hc1 Hc2)|].
    rewrite !length_app. cbn [length]. lia.
  - cbn [listen] in H. rewrite bind_get in H.
    apply bind_Ok in H as ([] & w1 & Hl & H).
    apply bind_Ok in H as ([] & w2 & Hd & H). injection H as <- <-.
    split; [done|]. apply listenDeferred_changes in Hd.
    assert (∃ ls, changes w w1 [] [] [] [] ls false ∧ (length ls ≤ 1)%nat)
      as (ls & Hc1 & Hb1).
    { destruct unexpected.
      - unfold echo, modify in Hl. injection Hl as <-.
        destruct w as [[] [? []] ? ?]. eexists [_]. split; [|cbn [length]; lia].
        unfold changes, own_sub; turn_cbn; split_ands;
         first [ reflexivity | symmetry; apply app_nil_r | by left | done ].
      - injection Hl as <-. exists [].
        split; [apply changes_nothing|cbn [length]; lia]. }
    eexists _, _, _, _, _.
    split; [exact (changes_then _ _ _ _ _ _ _ _ _ _ _ _ _ _ Hc1 Hd)|].
    rewrite ?length_app, ?app_nil_r. cbn [length]. lia.
Qed.

End ReadLoopChanges.
(** ** The read loop does not panic in a world that is ready *)

Lemma changes_ready (w w' : World) rs sent fs ps ls (ended : bool) :
  changes w w' rs sent fs ps ls ended → ready w → ready w'.
Proof.
  unfold changes, ready.
  intros (_ & _ & _ & _ & Hcl & _ & _ & _ & _ & _ & _ & _ & _ & Hid & _ & _ & _
          & _ & Hh & _ & _ & Hca & Hse) (Hs & Hc & Hk).
  split_ands.
  - by apply Hse.
  - by rewrite Hcl.
  - intros h. rewrite Hid, Hh. destruct Hca as [-> | ->]; [apply Hk|].
    by rewrite lookup_delete_eq.
Qed.

Ltac run_cases :=
  unfold listenFrame, beforeDispatch, refreshToken, touchSession, dispatch,
    decode, handlePatch, handleQuery, handleWatch, watchApp, subscribe, send,
    chan_try_send, forward, echo, deref, bind, get, modify, ret, throw,
    logoutFrame, metaFrame, json.Marshal_OpsD, json.Marshal_body;
  turn_cbn; repeat (case_match; simplify_eq; turn_cbn).

Lemma handlePatch_returns (m : Msg) (w : World) :
  ∃ w', handlePatch m w = Ok (tt, w').
Proof. run_cases; eauto. Qed.

Lemma handleQuery_returns (m : Msg) (w : World) :
  ∃ w', handleQuery m w = Ok (tt, w').
Proof. run_cases; eauto. Qed.

Lemma send_returns (data : string) (w : World) :
  ch_closed (c_data (client w)) = false → ∃ ok w', send data w = Ok (ok, w').
Proof. intros H. run_cases; eauto. Qed.

Lemma handleWatch_returns (m : Msg) (w : World) :
  ready w → ∃ w', handleWatch m w = Ok (tt, w').
Proof.
  destruct w as [[cid ca caddr cs conn routes [buf cap closed] ed base hdr]
                 [ga [sat cache] subs unsubs pats] fw lg].
  intros ([s Hs] & Hc & Hk). turn_cbn. subst cs closed. run_cases.
  all: first
    [ by eauto
    | exfalso;
      match goal with
      | Hk : ∀ h, _ → _ |- _ =>
          destruct (Hk _ eq_refl) as [[? ?] [? ?]]; discriminate
      end ].
Qed.

Section ReadLoopReturns.

Variable parseMsg : string → Msg.
Variable resolveURL : string → string → string.
Variable touch : Session → Z → Session * option string.
Variable ensureValidOAuth2Token : Auth → Token → option Token * option string.

#[local] Abbreviation listenFrame4 :=
  (listenFrame parseMsg resolveURL touch ensureValidOAuth2Token).
#[local] Abbreviation listen4 :=
  (listen parseMsg resolveURL touch ensureValidOAuth2Token).

Lemma beforeDispatch_returns (w : World) :
  is_Some (c_session (client w)) →
  ∃ expired w', beforeDispatch touch ensureValidOAuth2Token w = Ok (expired, w').
Proof.
  destruct w as [[cid ca caddr cs conn routes [buf cap closed] ed base hdr]
                 [ga [sat cache] subs unsubs pats] fw lg].
  intros [s Hs]. turn_cbn. subst cs. run_cases; eauto.
Qed.

Lemma dispatch_returns (m : Msg) (w : World) :
  ready w → ∃ w', dispatch m w = Ok (tt, w').
Proof.
  intros Hr. unfold dispatch. destruct (t m).
  - apply handlePatch_returns.
  - apply handleQuery_returns.
  - by apply handleWatch_returns.
  - by eexists.
Qed.

Lemma bind_run {A B} (m : Go A) (k : A → Go B) (w w1 : World) (a : A) :
  m w = Ok (a, w1) → bind m k w = k a w1.
Proof. unfold bind. by intros ->. Qed.

Lemma listenFrame_returns (msg : string) (w : World) :
  ready w → ∃ w', listenFrame4 msg w = Ok (tt, w').
Proof.
  intros Hr.
  destruct (beforeDispatch_returns w) as (expired & w1 & Hb); [apply Hr|].
  destruct (beforeDispatch_changes _ _ _ _ _ Hb) as (ls & Hc & _).
  pose proof (changes_ready _ _ _ _ _ _ _ _ Hc Hr) as Hr1.
  unfold listenFrame. rewrite (bind_run _ _ _ _ _ Hb), bind_get.
  destruct expired as [e|].
  - destruct (logoutFrame (c_baseURL (client w1))) as [text|err]; [|by eexists].
    destruct (send_returns text w1) as (ok & w2 & Hs); [apply Hr1|].
    rewrite (bind_run _ _ _ _ _ Hs). by eexists.
  - by apply dispatch_returns.
Qed.

End ReadLoopReturns.
(** ** Runs of the read loop *)

Section ReadLoopRuns.

Variable parseMsg : string → Msg.
Variable resolveURL : string → string → string.
Variable touch : Session → Z → Session * option string.
Variable ensureValidOAuth2Token : Auth → Token → option Token * option string.

#[local] Abbreviation listen5 :=
  (listen parseMsg resolveURL touch ensureValidOAuth2Token).

(** X11. The read loop does not panic in a world that is ready for it:
    with a session, an open queue and, when the header cache holds an
    entry for the connection, headers in that entry and a header of the
    connection's own, every run of reads returns, and the world it leaves
    is ready again. *)
Theorem listen_ready_returns (reads : list readResult) (w : World) :
  ready w →
  ∃ ended w', listen5 reads w = Ok (ended, w') ∧ ready w'.
Proof.
  revert w. induction reads as [|[msg|unexpected err] rest IH]; intros w Hr.
  - by exists false, w.
  - destruct (listenFrame_returns parseMsg resolveURL touch
                ensureValidOAuth2Token msg w Hr) as (w1 & Hf).
    destruct (listenFrame_changes _ _ _ _ _ _ _ Hf)
      as (rs & sent & fs & ps & ls & Hc & _).
    destruct (IH w1) as (ended & w' & Hl & Hr'); [by eapply changes_ready|].
    exists ended, w'. split; [|done].
    cbn [listen]. by rewrite (bind_run _ _ _ _ _ Hf).
  - destruct unexpected; (eexists _, _; split; [reflexivity|]);
      destruct Hr as (Hs & Hc & Hk); by split_ands.
Qed.

(** X12. The read loop ends when a read fails, and not before; its
    deferred function runs then, once: the connection's id goes to the
    broker's unsubscribe channel and the connection is closed. While the
    loop goes on, it leaves the unsubscribe channel and the connection as
    they are. *)
Theorem listen_ends_at_read_error (reads : list readResult) (w w' : World)
    (ended : bool) :
  listen5 reads w = Ok (ended, w') →
  ended = existsb is_read_error reads
  ∧ unsubscribe_ch (broker w') =
      (unsubscribe_ch (broker w) ++ if ended then [c_id (client w)] else [])%list
  ∧ c_conn (client w') =
      (if ended then conn_close (c_conn (client w)) else c_conn (client w)).
Proof.
  intros H. apply listen_changes in H as (He & rs & sent & fs & ps & ls & Hc & _).
  split; [done|]. unfold changes in Hc. tauto.
Qed.

(** X13. The routes of the client and the subscriptions handed to the
    broker grow in step: over a run, the loop adds routes at the end of
    [c.routes], at most two for a frame, and sends the broker one
    subscription for each, in the same order and under the connection's
    id. It removes no route and sends no other subscription. *)
Theorem listen_subscribes_its_routes (reads : list readResult) (w w' : World)
    (ended : bool) :
  listen5 reads w = Ok (ended, w') →
  ∃ rs,
    (c_routes (client w') = c_routes (client w) ++ rs
     ∧ subscribe_ch (broker w') = subscribe_ch (broker w) ++ map (own_sub w) rs
     ∧ length rs ≤ 2 * length reads)%list%nat.
Proof.
  intros H. apply listen_changes in H as (_ & rs & sent & fs & ps & ls & Hc & Hb).
  exists rs. unfold changes in Hc. split_ands; [tauto|tauto|lia].
Qed.

(** X14. The read loop only adds to the queue of the client: over a run,
    what was queued stays at the front, at most two messages are added for
    a frame, the queue is never made longer than its capacity, and the
    loop neither closes it nor changes its capacity. *)
Theorem listen_queue_within_capacity (reads : list readResult) (w w' : World)
    (ended : bool) :
  listen5 reads w = Ok (ended, w') →
  (chan_len (c_data (client w)) ≤ ch_cap (c_data (client w)))%nat →
  (chan_len (c_data (client w')) ≤ ch_cap (c_data (client w')))%nat
  ∧ ch_cap (c_data (client w')) = ch_cap (c_data (client w))
  ∧ ch_closed (c_data (client w')) = ch_closed (c_data (client w))
  ∧ ∃ sent,
      (ch_buf (c_data (client w')) = ch_buf (c_data (client w)) ++ sent
       ∧ length sent ≤ 2 * length reads)%list%nat.
Proof.
  intros H Hlen.
  apply listen_changes in H as (_ & rs & sent & fs & ps & ls & Hc & Hb).
  unfold changes in Hc. split_ands; [tauto|tauto|tauto|].
  exists sent. split; [tauto|lia].
Qed.

(** X15. The header cache of the site is shared by all connections, and
    the read loop touches its own entry only: over a run, the entry of
    every other connection id is as it was, and the entry of the
    connection's own id is as it was or gone. The applications and the
    pages of the broker are as they were. *)
Theorem listen_cache_of_others (reads : list readResult) (w w' : World)
    (ended : bool) :
  listen5 reads w = Ok (ended, w') →
  (∀ k, k ≠ c_id (client w) →
        clientIDToHeaders (site (broker w')) !! k =
        clientIDToHeaders (site (broker w)) !! k)
  ∧ (clientIDToHeaders (site (broker w')) !! c_id (client w) =
       clientIDToHeaders (site (broker w)) !! c_id (client w)
     ∨ clientIDToHeaders (site (broker w')) !! c_id (client w) = None)
  ∧ getApp (broker w') = getApp (broker w)
  ∧ site_at (site (broker w')) = site_at (site (broker w)).
Proof.
  intros H. apply listen_changes in H as (_ & rs & sent & fs & ps & ls & Hc & _).
  unfold changes in Hc.
  destruct Hc as (_ & _ & _ & _ & _ & _ & _ & _ & _ & _ & _ & _ & _ & _ & _ & _
                  & _ & _ & _ & Hg & Hsa & Hca & _).
  split_ands; try done.
  - intros k Hk. destruct Hca as [-> | ->]; [done|]. by rewrite lookup_delete_ne.
  - destruct Hca as [-> | ->]; [by left|]. right. by rewrite lookup_delete_eq.
Qed.

(** X16. Whatever the read loop forwards to an application, it forwards
    under the id of its own connection: over a run, the requests
    forwarded before stay, at most one is added for a frame, and each one
    added carries the connection's id. *)
Theorem listen_forwards_as_itself (reads : list readResult) (w w' : World)
    (ended : bool) :
  listen5 reads w = Ok (ended, w') →
  ∃ fs,
    (forwards w' = forwards w ++ fs
     ∧ Forall (λ f, fw_client f = c_id (client w)) fs
     ∧ length fs ≤ length reads)%list%nat.
Proof.
  intros H. apply listen_changes in H as (_ & rs & sent & fs & ps & ls & Hc & Hb).
  exists fs. unfold changes in Hc. split_ands; [tauto|tauto|lia].
Qed.

(** X17. A connection that is not editable patches nothing, whatever it is
    sent: over a run of the read loop the patches of the broker are as
    they were. On an editable connection at most one patch is applied for
    a frame, after those applied before. *)
Theorem listen_patches_when_editable (reads : list readResult) (w w' : World)
    (ended : bool) :
  listen5 reads w = Ok (ended, w') →
  ∃ ps,
    (patches (broker w') = patches (broker w) ++ ps
     ∧ length ps ≤ length reads
     ∧ (c_editable (client w) = false → ps = []))%list%nat.
Proof.
  intros H. apply listen_changes in H as (_ & rs & sent & fs & ps & ls & Hc & Hb).
  exists ps. unfold changes in Hc. split_ands; [tauto|lia|tauto].
Qed.

(** X18. The read loop assigns none of the fields a connection is made
    with but the session: over a run, the id, the auth provider, the
    address, the editable flag, the base URL and the header of the client
    are as they were, a client with a session still has one and a client
    without still has none; and the log only grows, by at most two lines
    for a read. *)
Theorem listen_keeps_the_client (reads : list readResult) (w w' : World)
    (ended : bool) :
  listen5 reads w = Ok (ended, w') →
  c_id (client w') = c_id (client w)
  ∧ c_auth (client w') = c_auth (client w)
  ∧ c_addr (client w') = c_addr (client w)
  ∧ c_editable (client w') = c_editable (client w)
  ∧ c_baseURL (client w') = c_baseURL (client w)
  ∧ c_header (client w') = c_header (client w)
  ∧ (is_Some (c_session (client w')) ↔ is_Some (c_session (client w)))
  ∧ ∃ ls, (logs w' = logs w ++ ls ∧ length ls ≤ 2 * length reads)%list%nat.
Proof.
  intros H. apply listen_changes in H as (_ & rs & sent & fs & ps & ls & Hc & Hb).
  unfold changes in Hc. split_ands; try tauto.
  exists ls. split; [tauto|lia].
Qed.

End ReadLoopRuns.
(** ** The location hash of a watch, through the encoder and the decoder *)

Lemma string_body_escape_ascii (c : ascii) (f : nat) (rest : string) :
  (json.code c <? 0x80)%N = true →
  json.string_body (S f) (json.escape_ascii c +:+ rest)
  = json.prepend (String c "") (json.string_body f rest).
Proof.
  destruct c as [[] [] [] [] [] [] [] []]; intros H; try discriminate H;
    reflexivity.
Qed.

Lemma escape_from_ascii (c : ascii) (r : string) :
  (json.code c <? 0x80)%N = true →
  json.escape_from true 0 (String c r)
  = json.escape_ascii c +:+ json.escape_from true 0 r.
Proof. intros H. cbn [json.escape_from]. by rewrite H. Qed.

(** The decoder reads back what the encoder wrote between the quotes. *)
Lemma string_body_escaped (data : string) : ∀ (f : nat) (rest : string),
  all_ascii data = true →
  (String.length data < f)%nat →
  json.string_body f (json.escape_from true 0 data +:+ String dquote rest)
  = Some (data, rest).
Proof.
  induction data as [|c r IH]; intros f rest Ha Hf;
    (destruct f as [|f]; [cbn [String.length] in Hf; lia|]).
  - reflexivity.
  - cbn [all_ascii] in Ha. apply andb_prop in Ha as [Hc Hr].
    rewrite escape_from_ascii, append_assoc, string_body_escape_ascii by done.
    rewrite IH; [reflexivity|done|cbn [String.length] in Hf; lia].
Qed.

Lemma boot_text (data : string) :
  json.object_text [json.member "#" (json.quote data)]
  = String "{" (String dquote (String "#" (String dquote (String ":"
      (String dquote (json.escape_from true 0 data +:+ String dquote "}")))))).
Proof.
  unfold json.object_text, json.member, json.quote. cbn [strings_Join].
  change (json.escape_from true 0 "#") with "#".
  same_text.
Qed.

Lemma parse_boot (data : string) :
  all_ascii data = true →
  json.parse (json.object_text [json.member "#" (json.quote data)])
  = Some (json.Object [("#", json.Str data)]).
Proof.
  intros Ha.
  assert (json.string_token
            (json.escape_from true 0 data +:+ String dquote "}")
          = Some (data, "}")) as Ht.
  { apply (string_token_fuel_enough _ (S (String.length data))).
    apply string_body_escaped; [done|lia]. }
  apply (parse_fuel_enough _ 3 _ ""); [|reflexivity].
  rewrite boot_text.
  remember (json.escape_from true 0 data +:+ String dquote "}") as tail.
  lazy -[json.string_token].
  match goal with
  | |- context [json.string_token (String ?a (String ?b ?r))] =>
      change (json.string_token (String a (String b r))) with (Some ("#", r))
  end.
  lazy -[json.string_token]. rewrite Ht. reflexivity.
Qed.

(** X19. The location hash of a watch comes back from the encoder and the
    decoder as it went in: for a hash that is not empty and has no byte
    above 0x7f, whatever quotes, backslashes, control characters or
    characters the encoder escapes for HTML it holds, the arguments of the
    boot are the map with the one key # and the hash as its value. Without
    hash they are the empty map. *)
Theorem bootArgs_ascii_hash (data : string) :
  all_ascii data = true →
  bootArgs data = Some (if String.eqb data "" then ∅ else {[ "#" := data ]}).
Proof.
  intros Ha. destruct data as [|c r]; [reflexivity|].
  unfold bootArgs, json.Marshal_Boot, json.Unmarshal.
  cbn [String.length Nat.ltb Nat.leb Hash String.eqb].
  by rewrite parse_boot.
Qed.
(** ** The header merge, once more *)

(** X20. Merging the same headers into the map a second time changes
    nothing: what [mergeHeaders] writes depends on the two headers only. *)
Theorem mergeHeaders_again (headersMap : gmap string string) (h1 h2 : Header) :
  mergeHeaders (mergeHeaders headersMap h1 h2) h1 h2 = mergeHeaders headersMap h1 h2.
Proof.
  apply map_eq. intros k. rewrite !mergeHeaders_lookup.
  destruct (header_get h1 k); [done|]. by destruct (header_get h2 k).
Qed.
(** ** The properties above, on sample data *)


Lemma query_without_app_is_logged_witness :
  let w := sample_world unicastMode None None in
  let m := {| t := queryMsgT; addr := "/nowhere"; data := "{}" |} in
  ∃ w2,
    listenFrame (parse_as m) resolve_absolute touch_alive token_valid "frame" w
      = Ok (tt, w2)
    ∧ logs w2 = [[("t", "query"); ("client", "10.0.0.1:5000");
                  ("route", "/nowhere"); ("error", "service unavailable")]]
    ∧ forwards w2 = [].
Proof.
  intros w m.
  destruct (query_without_app_is_logged (parse_as m) resolve_absolute touch_alive
              token_valid "frame" w w eq_refl eq_refl eq_refl)
    as (H1 & H2 & _).
  eexists. split; [exact H1|]. split; [reflexivity|exact H2].
Defined.

Lemma watch_page_witness :
  let w := sample_site_world {| marshal := Some "{}" |} in
  let m := {| t := watchMsgT; addr := "/page"; data := "" |} in
  ∃ w2,
    listenFrame (parse_as m) resolve_absolute touch_alive token_valid "frame" w
      = Ok (tt, w2)
    ∧ ch_buf (c_data (client w2)) = [metaText sample_session true; "{}"].
Proof.
  intros w m. eexists. split.
  - exact (watch_page (parse_as m) resolve_absolute touch_alive token_valid
             "frame" w w sample_session {| marshal := Some "{}" |}
             eq_refl eq_refl eq_refl eq_refl eq_refl eq_refl).
  - reflexivity.
Defined.

Lemma beforeDispatch_with_auth_witness :
  let w := sample_world_with (Some sample_auth) (Some sample_session_with_token)
             unicastMode None None in
  ∃ w',
    beforeDispatch touch_alive token_refused w = Ok (None, w')
    ∧ c_session (client w') = Some sample_session_with_token
    ∧ logs w' = [[("t", "refresh_oauth2_token"); ("client", "10.0.0.1:5000");
                  ("err", "invalid_grant")]].
Proof.
  intros w.
  destruct (beforeDispatch_with_auth touch_alive token_refused w
              sample_session_with_token sample_auth eq_refl eq_refl) as [H1 _].
  eexists. split; [exact H1|]. split; reflexivity.
Defined.

Lemma auth_without_session_panics_witness :
  let w := sample_world_with (Some sample_auth) None unicastMode None None in
  listenFrame (parse_as sample_watch) resolve_absolute touch_alive token_valid
    "frame" w = Panic nil_dereference.
Proof.
  intros w.
  exact (auth_without_session_panics (parse_as sample_watch) resolve_absolute
           touch_alive token_valid "frame" w sample_auth eq_refl eq_refl).
Defined.

Lemma quit_then_send_panics_witness :
  let w := sample_queue_world ["a"] sample_conn in
  ∃ w',
    quit w = Ok (tt, w')
    ∧ ch_buf (c_data (client w')) = ["a"]
    ∧ send "b" w' = Panic send_on_closed_channel
    ∧ quit w' = Panic close_of_closed_channel.
Proof.
  intros w.
  destruct (quit_then_send_panics w "b" eq_refl) as (w' & H1 & _ & H3 & H4 & H5).
  exists w'. split; [exact H1|]. split; [exact H3|]. split; [exact H4|exact H5].
Defined.

Lemma flush_keeps_to_its_side_witness :
  let w := sample_queue_world ["a"; "b"] sample_conn in
  ∃ w',
    flush [dataCase; tickerCase] w = Some (w', false)
    ∧ broker w' = broker w
    ∧ c_routes (client w') = c_routes (client w)
    ∧ conn_closed (c_conn (client w')) = false.
Proof.
  intros w. eexists. split; [reflexivity|].
  destruct (flush_keeps_to_its_side [dataCase; tickerCase] w _ false eq_refl)
    as (H1 & _ & _ & H4 & _ & _ & _ & _ & _ & H10).
  split; [exact H1|]. split; [exact H4|exact H10].
Defined.

Lemma flush_drains_before_close_witness :
  let w := sample_queue_world ["a"; "b"] sample_conn in
  ∃ w1 w2,
    quit w = Ok (tt, w1)
    ∧ flush [dataCase; dataCase] w1 = Some (w2, true)
    ∧ wire (c_conn (client w2)) =
        [TextMessage ("a" +:+ newline +:+ "b"); CloseMessage ""]
    ∧ conn_closed (c_conn (client w2)) = true.
Proof.
  intros w.
  destruct (flush_drains_before_close w ["a"; "b"] eq_refl eq_refl eq_refl eq_refl)
    as (w1 & w2 & H1 & H2 & H3 & _ & H5).
  exists w1, w2. split; [exact H1|]. split; [exact H2|]. split; [exact H3|exact H5].
Defined.

Lemma flush_transport_error_witness :
  let broken := {| wire := []; conn_closed := false; write_fails := true;
                   flush_fails := false |} in
  let w := sample_queue_world ["a"; "b"] broken in
  ∃ w',
    flush [dataCase; tickerCase] w = Some (w', true)
    ∧ wire (c_conn (client w')) = []
    ∧ conn_closed (c_conn (client w')) = true
    ∧ ch_buf (c_data (client w')) = ["b"].
Proof.
  intros broken w.
  destruct (flush_transport_error w "a" ["b"] [tickerCase] eq_refl
              (or_introl eq_refl))
    as (w' & H1 & H2 & H3 & H4).
  exists w'. split; [exact H1|]. split; [exact H2|]. split; [exact H3|exact H4].
Defined.

Lemma exchange_keeps_order_witness :
  let w := sample_queue_world [] sample_conn in
  let evs := [Sends "a"; Sends "b"; Flushes dataCase; Sends "c";
              Flushes tickerCase] in
  ∃ w',
    exchange evs w = Some (["a"; "b"; "c"], w')
    ∧ strings_Join (outbound w') newline
      = "a" +:+ newline +:+ "b" +:+ newline +:+ "c".
Proof.
  intros w evs. eexists. split; [reflexivity|].
  exact (exchange_keeps_order evs w _ ["a"; "b"; "c"] eq_refl).
Defined.

Lemma listen_ready_returns_witness :
  let w := sample_world multicastMode (Some sample_cached) (Some sample_own) in
  ready w
  ∧ ∃ ended w',
      listen (parse_as sample_watch) resolve_absolute touch_alive token_valid
        sample_reads w = Ok (ended, w')
      ∧ ready w'.
Proof.
  intros w.
  assert (ready w) as Hr.
  { split; [by eexists|]. split; [reflexivity|].
    intros h Hh. vm_compute in Hh. injection Hh as <-. split; by eexists. }
  split; [exact Hr|].
  exact (listen_ready_returns (parse_as sample_watch) resolve_absolute
           touch_alive token_valid sample_reads w Hr).
Defined.

(** The sample run: two watches of the application, then a read that
    fails. *)
Ltac sample_run H :=
  match goal with
  | |- ∃ w', listen ?p ?r ?t ?e ?reads ?w = Ok (true, w') ∧ _ =>
      eassert (listen p r t e reads w = Ok (true, _)) as H
        by (vm_compute; reflexivity);
      eexists; split; [exact H|]
  end.

Lemma listen_ends_at_read_error_witness :
  let w := sample_world multicastMode (Some sample_cached) (Some sample_own) in
  ∃ w',
    listen (parse_as sample_watch) resolve_absolute touch_alive token_valid
      sample_reads w = Ok (true, w')
    ∧ unsubscribe_ch (broker w') = ["c1"]
    ∧ conn_closed (c_conn (client w')) = true.
Proof.
  intros w. sample_run H.
  destruct (listen_ends_at_read_error (parse_as sample_watch) resolve_absolute
              touch_alive token_valid sample_reads w _ true H)
    as (_ & H1 & H2).
  split; [exact H1|]. rewrite H2. reflexivity.
Defined.

Lemma listen_subscribes_its_routes_witness :
  let w := sample_world multicastMode (Some sample_cached) (Some sample_own) in
  ∃ w',
    listen (parse_as sample_watch) resolve_absolute touch_alive token_valid
      sample_reads w = Ok (true, w')
    ∧ ∃ rs,
        c_routes (client w') = rs
        ∧ subscribe_ch (broker w') = map (own_sub w) rs
        ∧ (length rs ≤ 8)%nat.
Proof.
  intros w. sample_run H.
  destruct (listen_subscribes_its_routes (parse_as sample_watch) resolve_absolute
              touch_alive token_valid sample_reads w _ true H)
    as (rs & H1 & H2 & H3).
  exists rs. split; [exact H1|]. split; [exact H2|exact H3].
Defined.

Lemma listen_queue_within_capacity_witness :
  let w := sample_world multicastMode (Some sample_cached) (Some sample_own) in
  ∃ w',
    listen (parse_as sample_watch) resolve_absolute touch_alive token_valid
      sample_reads w = Ok (true, w')
    ∧ (chan_len (c_data (client w')) ≤ 256)%nat
    ∧ ch_closed (c_data (client w')) = false.
Proof.
  intros w. sample_run H.
  destruct (listen_queue_within_capacity (parse_as sample_watch) resolve_absolute
              touch_alive token_valid sample_reads w _ true H)
    as (H1 & _ & H3 & _).
  - cbn. lia.
  - split; [exact H1|exact H3].
Defined.

Lemma listen_cache_of_others_witness :
  let w := with_broker
             (set_headers (<["c2" := Some sample_own]>
                             (<["c1" := Some sample_cached]> ∅)))
             (sample_world multicastMode None (Some sample_own)) in
  ∃ w',
    listen (parse_as sample_watch) resolve_absolute touch_alive token_valid
      sample_reads w = Ok (true, w')
    ∧ clientIDToHeaders (site (broker w')) !! "c2" = Some (Some sample_own).
Proof.
  intros w. sample_run H.
  destruct (listen_cache_of_others (parse_as sample_watch) resolve_absolute
              touch_alive token_valid sample_reads w _ true H)
    as (H1 & _).
  rewrite (H1 "c2"); [reflexivity|discriminate].
Defined.

Lemma listen_forwards_as_itself_witness :
  let w := sample_world multicastMode (Some sample_cached) (Some sample_own) in
  ∃ w',
    listen (parse_as sample_watch) resolve_absolute touch_alive token_valid
      sample_reads w = Ok (true, w')
    ∧ Forall (λ f, fw_client f = "c1") (forwards w').
Proof.
  intros w. sample_run H.
  destruct (listen_forwards_as_itself (parse_as sample_watch) resolve_absolute
              touch_alive token_valid sample_reads w _ true H)
    as (fs & H1 & H2 & _).
  rewrite H1. exact H2.
Defined.

Lemma listen_patches_when_editable_witness :
  let w := with_client (λ c, {| c_id := c_id c; c_auth := c_auth c;
                                c_addr := c_addr c; c_session := c_session c;
                                c_conn := c_conn c; c_routes := c_routes c;
                                c_data := c_data c; c_editable := false;
                                c_baseURL := c_baseURL c;
                                c_header := c_header c |})
             (sample_world unicastMode None None) in
  let m := {| t := patchMsgT; addr := "/demo"; data := "set x 1" |} in
  ∃ w',
    listen (parse_as m) resolve_absolute touch_alive token_valid
      sample_reads w = Ok (true, w')
    ∧ patches (broker w') = [].
Proof.
  intros w m. sample_run H.
  destruct (listen_patches_when_editable (parse_as m) resolve_absolute
              touch_alive token_valid sample_reads w _ true H)
    as (ps & H1 & _ & H3).
  rewrite H1, (H3 eq_refl). reflexivity.
Defined.

Lemma listen_keeps_the_client_witness :
  let w := sample_world multicastMode (Some sample_cached) (Some sample_own) in
  ∃ w',
    listen (parse_as sample_watch) resolve_absolute touch_alive token_valid
      sample_reads w = Ok (true, w')
    ∧ c_id (client w') = "c1"
    ∧ c_header (client w') = Some sample_own.
Proof.
  intros w. sample_run H.
  destruct (listen_keeps_the_client (parse_as sample_watch) resolve_absolute
              touch_alive token_valid sample_reads w _ true H)
    as (H1 & _ & _ & _ & _ & H6 & _).
  split; [exact H1|exact H6].
Defined.

Lemma bootArgs_ascii_hash_witness :
  all_ascii (lit "#a'b<c>&d\e") = true
  ∧ bootArgs (lit "#a'b<c>&d\e") = Some {[ "#" := lit "#a'b<c>&d\e" ]}.
Proof.
  split; [reflexivity|].
  exact (bootArgs_ascii_hash (lit "#a'b<c>&d\e") eq_refl).
Defined.
